(** * js-ceramic core: the gossip Dispatcher and the document fork choice

    A shallow embedding of [packages/core/src/dispatcher.ts] (the class
    [Dispatcher]) together with the fork-choice rule of the document
    state machine, and the properties the specification states about
    them. *)

From Stdlib Require Import ZArith NArith Lia Bool DecimalString.
From Stdlib.Strings Require Byte.
From stdpp Require Import gmap strings list fin_maps.

Set Default Proof Using "Type".

(* ===================================================================== *)
(** * Fork choice of the document state machine                          *)
(* ===================================================================== *)

Module ForkChoice.

(** Commit identifiers are compared "as opaque byte sequences". *)
Definition Identifier : Type := list Byte.byte.

#[global] Instance byte_eq_dec : EqDecision Byte.byte := Byte.byte_eq_dec.

(** Lexicographic "strictly smaller" on byte sequences. *)
Fixpoint id_ltb (a b : Identifier) : bool :=
  match a, b with
  | [], [] => false
  | [], _ :: _ => true
  | _ :: _, [] => false
  | x :: a', y :: b' =>
      if (Byte.to_N x <? Byte.to_N y)%N then true
      else if (Byte.to_N y <? Byte.to_N x)%N then false
      else id_ltb a' b'
  end.

(** The three commit variants of the data model.  Only what fork choice
    reads is kept: an anchor commit carries the finalized timestamp of its
    proof. *)
Inductive Commit : Type :=
| Genesis
| Signed
| Anchor (timestamp : Z).

(** A log: the commits from genesis to tip. *)
Definition Log : Type := list Commit.

Section Document.

(** The content-addressed store: a tip identifier resolves to its full
    log back to genesis. *)
Variable fetchLog : Identifier -> Log.

(** Timestamp of the anchor proof when the tip of the log is anchored. *)
Definition anchorTime (tip : Identifier) : option Z :=
  match last (fetchLog tip) with
  | Some (Anchor t) => Some t
  | _ => None
  end.

Definition isAnchored (tip : Identifier) : bool :=
  match anchorTime tip with Some _ => true | None => false end.

Definition logLength (tip : Identifier) : nat := length (fetchLog tip).

(** Tie-break: the lexicographically smaller identifier wins. *)
Definition smallerId (A B : Identifier) : Identifier :=
  if id_ltb B A then B else A.

(** Modelled from the spec: the fork-choice rule of [handleTip]
    (document.ts is not among the sources).  [A] is the current log,
    [B] the candidate log, both named by their tips. *)
Definition forkChoice (A B : Identifier) : Identifier :=
  match anchorTime A, anchorTime B with
  | Some _, None => A
  | None, Some _ => B
  | Some ta, Some tb =>
      if (ta <? tb)%Z then A
      else if (tb <? ta)%Z then B
      else smallerId A B
  | None, None =>
      if (logLength B <? logLength A)%nat then A
      else if (logLength A <? logLength B)%nat then B
      else smallerId A B
  end.

(** Modelled from the spec: [handleTip(candidateTip)], the
    conflict-resolution entry point.  The document is represented by its
    current tip; the result is the new tip and whether a [change] event
    fires. *)
Definition handleTip (current candidateTip : Identifier) : Identifier * bool :=
  if decide (candidateTip = current) then (current, false)
  else
    let winner := forkChoice current candidateTip in
    (winner, negb (bool_decide (winner = current))).

(** Delivering a sequence of tips, in order. *)
Definition handleTips (current : Identifier) (tips : list Identifier) : Identifier :=
  fold_left (fun cur t => fst (handleTip cur t)) tips current.

(** [precedes A B]: [A] strictly beats [B] in the order fork choice
    induces: anchored before unanchored, then earlier timestamp (resp.
    longer log), then smaller identifier. *)
Definition rank (tip : Identifier) : Z * Z :=
  match anchorTime tip with
  | Some t => (0, t)
  | None => (1, - Z.of_nat (logLength tip))
  end%Z.

Definition precedes (A B : Identifier) : Prop :=
  (fst (rank A) < fst (rank B))%Z
  \/ (fst (rank A) = fst (rank B) /\ (snd (rank A) < snd (rank B))%Z)
  \/ (rank A = rank B /\ id_ltb A B = true).

End Document.

(** ** A concrete store for the examples *)
Module Example.

Definition tipS : Identifier := [Byte.x01].
Definition tipA : Identifier := [Byte.x02].
Definition tipB : Identifier := [Byte.x03].

(** The tips of the test "handles basic conflict": the anchored first
    commit, the update anchored first, and the conflicting update anchored
    later. *)
Definition tipPreUpdate : Identifier := [Byte.x10].
Definition tipValidUpdate : Identifier := [Byte.x21].
Definition tipInvalidUpdate : Identifier := [Byte.x22].

(** [tipS] is the bare genesis, [tipA] a short anchored log, [tipB] a
    longer log whose tip is not anchored. *)
Definition store (tip : Identifier) : Log :=
  if decide (tip = tipS) then [Genesis]
  else if decide (tip = tipA) then [Genesis; Anchor 10]
  else if decide (tip = tipB) then [Genesis; Anchor 10; Signed; Signed; Signed]
  else if decide (tip = tipPreUpdate) then [Genesis; Anchor 10]
  else if decide (tip = tipValidUpdate) then [Genesis; Anchor 10; Signed; Anchor 20]
  else if decide (tip = tipInvalidUpdate) then [Genesis; Anchor 10; Signed; Anchor 30]
  else [].

End Example.

End ForkChoice.

(* ===================================================================== *)
(** * The gossip Dispatcher (dispatcher.ts)                              *)
(* ===================================================================== *)

Module Dispatcher.

Open Scope string_scope.
Open Scope list_scope.

(** ** Constants *)

Definition IPFS_GET_TIMEOUT : N := 60000.
Definition IPFS_MAX_RECORD_SIZE : N := 256000.
Definition IPFS_RESUBSCRIBE_INTERVAL_DELAY : N := 1000 * 15.

(** ** Data *)

(** A content identifier, kept by its string form ([cid.toString()]). *)
Record CID : Type := mkCID { cid_toString : string }.

#[global] Instance CID_eq_dec : EqDecision CID.
Proof. solve_decision. Defined.

(** A document id ([@ceramicnetwork/docid]): the genesis CID and, for a
    commit id, the commit.  [baseID] drops the commit. *)
Record DocID : Type := mkDocID { docid_cid : CID; docid_commit : option CID }.

#[global] Instance DocID_eq_dec : EqDecision DocID.
Proof. solve_decision. Defined.

Definition baseID (d : DocID) : DocID :=
  {| docid_cid := docid_cid d; docid_commit := None |}.

(** [docId.toString()]; a stand-in for the multibase rendering of the
    library, injective on base ids as that one is. *)
Definition docid_toString (d : DocID) : string :=
  match docid_commit d with
  | None => cid_toString (docid_cid d)
  | Some c => cid_toString (docid_cid d) +:+ "?commit=" +:+ cid_toString c
  end.

(** What the Dispatcher reads of a [Document]: its id and its tip. *)
Record Document : Type := mkDocument { doc_id : DocID; doc_tip : CID }.

Inductive MsgType : Type := UPDATE | QUERY | RESPONSE.

Record QueryMessage : Type := mkQuery { q_id : string; q_doc : DocID }.
Record ResponseMessage : Type := mkResponse { r_id : string; r_tips : gmap string CID }.
Record UpdateMessage : Type := mkUpdate { u_doc : DocID; u_tip : CID }.

Inductive PubsubMessage : Type :=
| MsgUpdate (m : UpdateMessage)
| MsgQuery (m : QueryMessage)
| MsgResponse (m : ResponseMessage).

(** What [deserialize] hands to the [switch] of [handleMessage]: one of
    the three message shapes, or a value whose [typ] is none of them (the
    [default] branch). *)
Inductive Parsed : Type :=
| Known (m : PubsubMessage)
| UnknownTyp (typ : Z).

(** A message as the pub/sub transport delivers it. *)
Record IncomingMessage : Type := mkIncoming { msg_from : string; msg_data : string }.

(** The logical fields of a QUERY, the argument of [_hashMessage]. *)
Record QueryFields : Type := mkQueryFields { qf_typ : MsgType; qf_doc : string }.

(** The payload [register] publishes: [{...message, id}]. *)
Record QueryPayload : Type :=
  mkQueryPayload { qp_typ : MsgType; qp_doc : string; qp_id : string }.

(** A JWS envelope; [link] addresses its payload block. *)
Record JWS : Type := mkJWS { jws_payload : string; jws_signatures : list string; jws_link : CID }.

(** Commit data given to [storeCommit]: a signed-commit container
    [{jws, linkedBlock}] or any other record (its content is opaque to the
    Dispatcher). *)
Inductive CommitData : Type :=
| SignedCommitContainer (jws : JWS) (linkedBlock : list Byte.byte)
| PlainCommit (record : string).

(** An IPLD node given to [dag.put]. *)
Inductive IpldNode : Type :=
| DagJose (jws : JWS)
| DagCbor (record : string).

(** What the block store holds under a CID. *)
Inductive Stored : Type :=
| StoredNode (n : IpldNode)
| StoredRaw (bytes : list Byte.byte).

Inductive JsError : Type :=
| Error (message : string)
| UnreachableCaseError (message : string)
| TimeoutError.

Definition error_message (e : JsError) : string :=
  match e with
  | Error m => m
  | UnreachableCaseError m => m
  | TimeoutError => "request timed out"
  end.

Inductive Res (A : Type) : Type :=
| Ok (a : A)
| Throw (e : JsError).
Arguments Ok {A} a.
Arguments Throw {A} e.

(** ** The libraries and sibling modules the Dispatcher calls

    dag-cbor, sha-256, multihashes, uint8arrays, JSON and the
    serialization of pub/sub messages ([pubsub-message.ts]) are taken as
    given functions. *)
Record External : Type := mkExternal {
  dagCBOR_serialize : QueryFields -> list Byte.byte;
  sha256_hash : list Byte.byte -> list Byte.byte;
  multihashes_encode_sha2_256 : list Byte.byte -> list Byte.byte;
  uint8arrays_toString_base64url : list Byte.byte -> string;
  JSON_stringify : QueryPayload -> string;
  serialize : PubsubMessage -> string;
  deserialize : string -> Res Parsed;
  (* the CID [dag.put] assigns to a node and the size of its block *)
  dag_cid : IpldNode -> CID;
  dag_encoded_size : IpldNode -> N;
  (* IPLD path traversal of [dag.get] *)
  dag_resolve : Stored -> option string -> Stored;
  (* process.env.NODE_ENV == 'test' *)
  TESTING : bool
}.

(** A handler registered on a pub/sub topic: the dispatcher's own
    [this.handleMessage], or one that another user of the node registered. *)
Inductive Handler : Type :=
| HandleMessage
| OtherHandler (name : string).

#[global] Instance Handler_eq_dec : EqDecision Handler.
Proof. solve_decision. Defined.

(** ** Observable effects, in the order they happen

    Calls on the IPFS node, log lines, timers, and [DocumentEmitUpdate]: the
    ['update'] event by which the Dispatcher hands a tip to a document,
    whose listener runs the document's [handleTip]. *)

Inductive Effect : Type :=
| IpfsId
| PubsubLs
| PubsubUnsubscribe (topic : string) (handler : option Handler)
| PubsubSubscribe (topic : string) (handler : Handler)
| PubsubPublish (topic : string) (data : string)
| DagPut (cid : CID)
| BlockPut (cid : string)
| BlockStat (cid : string)
| DagGet (cid : string) (path : option string)
| LoggerErr (message : string)
| LoggerDebug (message : string)
| PubsubLoggerLog (event : string) (topic : string)
| DocumentEmitUpdate (doc : string) (tip : CID)
| SetInterval
| ClearInterval
| RepositoryClose.

#[global] Instance Effect_eq_dec : EqDecision Effect.
Proof. solve_decision. Defined.


(** ** The IPFS node (an external collaborator)

    Its block store, the handlers registered on its pub/sub topics (one
    entry per registration, the latest first; the same handler can be
    registered more than once), and the outcome of the coming [pubsub.ls] /
    [subscribe] / [unsubscribe] calls: each call takes the head of
    [ipfs_faults]; [Some e] makes it throw [e], [None] or an exhausted
    script lets it succeed. *)
Record Ipfs : Type := mkIpfs {
  ipfs_id : string;
  ipfs_libp2p : bool;
  ipfs_blocks : gmap string Stored;
  ipfs_subscriptions : list (string * Handler);
  ipfs_faults : list (option JsError)
}.

(** ** The Dispatcher with what it holds

    [_outstandingQueryIds] holds the own properties of the object.
    [_resubscribeInterval] is the handle the last [setInterval] returned
    ([None] while the field is undefined).  [timers] are the interval
    timers of the runtime, indexed by handle in the order they were armed:
    [true] while the timer is live, [false] once it has been cleared. *)

Record World : Type := mkWorld {
  _peerId : option string;
  topic : string;
  _outstandingQueryIds : gmap string DocID;
  _isRunning : bool;
  _resubscribeInterval : option nat;
  repository : gmap string Document;
  _ipfs : Ipfs;
  timers : list bool;
  effects : list Effect
}.

(** [new Dispatcher(ipfs, topic, repository, ...)] *)
Definition new_Dispatcher (ipfs : Ipfs) (t : string) (repo : gmap string Document) : World :=
  {| _peerId := None; topic := t; _outstandingQueryIds := ∅; _isRunning := true;
     _resubscribeInterval := None; repository := repo; _ipfs := ipfs; timers := [];
     effects := [] |}.

Definition with_peerId (w : World) (p : option string) : World :=
  {| _peerId := p; topic := topic w; _outstandingQueryIds := _outstandingQueryIds w;
     _isRunning := _isRunning w; _resubscribeInterval := _resubscribeInterval w;
     repository := repository w; _ipfs := _ipfs w; timers := timers w;
     effects := effects w |}.

Definition with_outstandingQueryIds (w : World) (t : gmap string DocID) : World :=
  {| _peerId := _peerId w; topic := topic w; _outstandingQueryIds := t;
     _isRunning := _isRunning w; _resubscribeInterval := _resubscribeInterval w;
     repository := repository w; _ipfs := _ipfs w; timers := timers w;
     effects := effects w |}.

Definition with_isRunning (w : World) (b : bool) : World :=
  {| _peerId := _peerId w; topic := topic w; _outstandingQueryIds := _outstandingQueryIds w;
     _isRunning := b; _resubscribeInterval := _resubscribeInterval w;
     repository := repository w; _ipfs := _ipfs w; timers := timers w;
     effects := effects w |}.

Definition with_resubscribeInterval (w : World) (b : option nat) : World :=
  {| _peerId := _peerId w; topic := topic w; _outstandingQueryIds := _outstandingQueryIds w;
     _isRunning := _isRunning w; _resubscribeInterval := b;
     repository := repository w; _ipfs := _ipfs w; timers := timers w;
     effects := effects w |}.

Definition with_repository (w : World) (r : gmap string Document) : World :=
  {| _peerId := _peerId w; topic := topic w; _outstandingQueryIds := _outstandingQueryIds w;
     _isRunning := _isRunning w; _resubscribeInterval := _resubscribeInterval w;
     repository := r; _ipfs := _ipfs w; timers := timers w; effects := effects w |}.

Definition with_ipfs (w : World) (i : Ipfs) : World :=
  {| _peerId := _peerId w; topic := topic w; _outstandingQueryIds := _outstandingQueryIds w;
     _isRunning := _isRunning w; _resubscribeInterval := _resubscribeInterval w;
     repository := repository w; _ipfs := i; timers := timers w; effects := effects w |}.

Definition with_timers (w : World) (t : list bool) : World :=
  {| _peerId := _peerId w; topic := topic w; _outstandingQueryIds := _outstandingQueryIds w;
     _isRunning := _isRunning w; _resubscribeInterval := _resubscribeInterval w;
     repository := repository w; _ipfs := _ipfs w; timers := t; effects := effects w |}.

Definition with_effects (w : World) (l : list Effect) : World :=
  {| _peerId := _peerId w; topic := topic w; _outstandingQueryIds := _outstandingQueryIds w;
     _isRunning := _isRunning w; _resubscribeInterval := _resubscribeInterval w;
     repository := repository w; _ipfs := _ipfs w; timers := timers w; effects := l |}.

Definition with_blocks (i : Ipfs) (b : gmap string Stored) : Ipfs :=
  {| ipfs_id := ipfs_id i; ipfs_libp2p := ipfs_libp2p i; ipfs_blocks := b;
     ipfs_subscriptions := ipfs_subscriptions i; ipfs_faults := ipfs_faults i |}.

Definition with_subscriptions (i : Ipfs) (s : list (string * Handler)) : Ipfs :=
  {| ipfs_id := ipfs_id i; ipfs_libp2p := ipfs_libp2p i; ipfs_blocks := ipfs_blocks i;
     ipfs_subscriptions := s; ipfs_faults := ipfs_faults i |}.

Definition with_faults (i : Ipfs) (f : list (option JsError)) : Ipfs :=
  {| ipfs_id := ipfs_id i; ipfs_libp2p := ipfs_libp2p i; ipfs_blocks := ipfs_blocks i;
     ipfs_subscriptions := ipfs_subscriptions i; ipfs_faults := f |}.

(** ** A state-and-exception monad for the methods *)

Definition M (A : Type) : Type := World -> Res A * World.

Definition ret {A} (a : A) : M A := fun w => (Ok a, w).

Definition bind {A B} (m : M A) (k : A -> M B) : M B :=
  fun w => match m w with
           | (Ok a, w') => k a w'
           | (Throw e, w') => (Throw e, w')
           end.

Definition throw {A} (e : JsError) : M A := fun w => (Throw e, w).

(** The outcome of a pure call that may throw. *)
Definition liftRes {A} (r : Res A) : M A := fun w => (r, w).

Definition gets {A} (f : World -> A) : M A := fun w => (Ok (f w), w).
Definition modify (f : World -> World) : M unit := fun w => (Ok tt, f w).
Definition emit (e : Effect) : M unit :=
  modify (fun w => with_effects w (effects w ++ [e])).

Declare Scope disp_scope.
Delimit Scope disp_scope with disp.
Notation "x <- m ;; k" := (bind m (fun x => k))
  (at level 100, m at next level, right associativity) : disp_scope.
Notation "m ;; k" := (bind m (fun _ => k))
  (at level 100, right associativity) : disp_scope.
Open Scope disp_scope.

(** ** Small helpers of the JavaScript runtime *)

(** [haystack.includes(needle)] on strings. *)
Definition includes (haystack needle : string) : bool :=
  match String.index 0 needle haystack with
  | Some _ => true
  | None => false
  end.

(** [topics.includes(topic)] on arrays. *)
Definition array_includes (topics : list string) (t : string) : bool :=
  bool_decide (t ∈ topics).

(** A number inside a template literal. *)
Definition number_toString (n : N) : string := NilZero.string_of_uint (N.to_uint n).

(** A string is truthy unless empty. *)
Definition truthy (s : string) : bool := negb (String.eqb s "").

(** The members every object inherits from [Object.prototype] (Node.js):
    eleven functions and the accessor [__proto__]. *)
Definition Object_prototype : list string :=
  ["constructor"; "__defineGetter__"; "__defineSetter__"; "hasOwnProperty";
   "__lookupGetter__"; "__lookupSetter__"; "isPrototypeOf"; "propertyIsEnumerable";
   "toString"; "valueOf"; "__proto__"; "toLocaleString"].

(** What [object[key]] yields on the query table, a plain object created
    by [{}]: the document id filed under the key, else the member of that
    name inherited from [Object.prototype]; [None] is [undefined].  Both
    kinds of value are truthy. *)
Inductive Property : Type :=
| OwnProperty (docId : DocID)
| InheritedMember (name : string).

Definition object_get (object : gmap string DocID) (key : string) : option Property :=
  match object !! key with
  | Some docId => Some (OwnProperty docId)
  | None =>
      if bool_decide (key ∈ Object_prototype) then Some (InheritedMember key) else None
  end.

(** [member.toString()] of an inherited member: [__proto__] is
    [Object.prototype] itself, [constructor] is the function [Object], the
    others are functions of their own name. *)
Definition member_toString (name : string) : string :=
  if String.eqb name "__proto__" then "[object Object]"
  else if String.eqb name "constructor" then "function Object() { [native code] }"
  else "function " +:+ name +:+ "() { [native code] }".

(** [value.toString()], also the way a value enters a string
    concatenation. *)
Definition property_toString (value : Property) : string :=
  match value with
  | OwnProperty docId => docid_toString docId
  | InheritedMember name => member_toString name
  end.

(** [clearInterval(handle)] on the timers of the runtime; clearing
    [undefined] or a cleared timer does nothing. *)
Definition clear_timer (handle : option nat) (ts : list bool) : list bool :=
  match handle with
  | Some h => <[h := false]> ts
  | None => ts
  end.

(** [emitter.removeListener]: at most one registration is removed, the
    most recent one. *)
Fixpoint remove_listener (r : string * Handler) (l : list (string * Handler))
  : list (string * Handler) :=
  match l with
  | [] => []
  | x :: l' => if decide (x = r) then l' else x :: remove_listener r l'
  end.

(** ** The Repository

    [repository.ts] is not among the sources.  The Document Registry of the
    specification is a mapping from document id to the one live document
    instance.  Its capacity-bounded eviction is left out: the spec does not
    say which entry it evicts. *)

(** Modelled from the spec: the registry is keyed by document id
    ([repository.ts] is missing); a commit id names the same document. *)
Definition repository_key (id : DocID) : string := docid_toString (baseID id).

(** Modelled from the spec: [repository.add] ([repository.ts] is missing);
    a second [add] for the same id rebinds. *)
Definition repository_add (d : Document) : M unit :=
  modify (fun w => with_repository w (<[repository_key (doc_id d) := d]> (repository w))).

(** Modelled from the spec: [repository.has] ([repository.ts] is missing). *)
Definition repository_has (id : DocID) : M bool :=
  gets (fun w => bool_decide (is_Some (repository w !! repository_key id))).

(** Modelled from the spec: [repository.has] on what the query table
    yielded ([repository.ts] is missing): the registry is keyed by document
    id, so it tracks nothing under an inherited member, which is none. *)
Definition repository_has_value (value : Property) : M bool :=
  match value with
  | OwnProperty id => repository_has id
  | InheritedMember _ => ret false
  end.

(** Modelled from the spec: the key of the document [repository.get]
    returns for such a value. *)
Definition repository_key_of (value : Property) : string :=
  match value with
  | OwnProperty id => repository_key id
  | InheritedMember name => member_toString name
  end.

(** Modelled from the spec: [repository.get] ([repository.ts] is missing). *)
Definition repository_get (id : DocID) : M (option Document) :=
  gets (fun w => repository w !! repository_key id).

(** Modelled from the spec: [repository.delete] ([repository.ts] is missing). *)
Definition repository_delete (id : DocID) : M unit :=
  modify (fun w => with_repository w (delete (repository_key id) (repository w))).

(** Modelled from the spec: [repository.close] ([repository.ts] is missing)
    releases the registry. *)
Definition repository_close : M unit :=
  (emit RepositoryClose ;;
   modify (fun w => with_repository w ∅)).

(** ** The calls on the IPFS node

    [pubsub.publish] and the block store are taken to answer; a block that
    is not in the store lets [block.stat] and [dag.get] run into their
    timeout. *)

Definition ipfs_id_call : M string :=
  (emit IpfsId ;; gets (fun w => ipfs_id (_ipfs w))).

(** One [pubsub.ls/subscribe/unsubscribe] call: it is attempted, then
    throws or succeeds as the head of the outcome script says. *)
Definition pubsub_call (e : Effect) (act : Ipfs -> Ipfs) : M unit :=
  (emit e ;;
   fun w =>
     match ipfs_faults (_ipfs w) with
     | Some err :: rest => (Throw err, with_ipfs w (with_faults (_ipfs w) rest))
     | None :: rest => (Ok tt, with_ipfs w (act (with_faults (_ipfs w) rest)))
     | [] => (Ok tt, with_ipfs w (act (_ipfs w)))
     end).

(** [pubsub.ls()]: the topics with a registered handler. *)
Definition pubsub_ls : M (list string) :=
  (pubsub_call PubsubLs (fun i => i) ;;
   gets (fun w => remove_dups (map fst (ipfs_subscriptions (_ipfs w))))).

(** [pubsub.unsubscribe(topic, handler)] removes a registration of that
    handler; [pubsub.unsubscribe(topic)], without a handler, removes every
    handler of the topic. *)
Definition pubsub_unsubscribe (t : string) (handler : option Handler) : M unit :=
  pubsub_call (PubsubUnsubscribe t handler)
    (fun i => with_subscriptions i
                match handler with
                | Some h => remove_listener (t, h) (ipfs_subscriptions i)
                | None => filter (fun r => fst r ≠ t) (ipfs_subscriptions i)
                end).

(** [pubsub.subscribe(topic, handler)] adds a registration. *)
Definition pubsub_subscribe (t : string) (handler : Handler) : M unit :=
  pubsub_call (PubsubSubscribe t handler)
    (fun i => with_subscriptions i ((t, handler) :: ipfs_subscriptions i)).

(** [setInterval(callback, delay)]: a new live timer, whose handle is
    returned. *)
Definition setInterval : M nat :=
  (emit SetInterval ;;
   handle <- gets (fun w => length (timers w)) ;;
   modify (fun w => with_timers w (timers w ++ [true])) ;;
   ret handle).

Definition clearInterval (handle : option nat) : M unit :=
  (emit ClearInterval ;;
   modify (fun w => with_timers w (clear_timer handle (timers w)))).

Definition pubsub_publish (t data : string) : M unit := emit (PubsubPublish t data).

Definition store_block (cid : string) (b : Stored) : M unit :=
  modify (fun w => with_ipfs w (with_blocks (_ipfs w) (<[cid := b]> (ipfs_blocks (_ipfs w))))).

Section Methods.

Variable ext : External.

Definition dag_put (n : IpldNode) : M CID :=
  let cid := dag_cid ext n in
  (emit (DagPut cid) ;;
   store_block (cid_toString cid) (StoredNode n) ;;
   ret cid).

Definition block_put (bytes : list Byte.byte) (cid : string) : M unit :=
  (emit (BlockPut cid) ;; store_block cid (StoredRaw bytes)).

Definition stored_size (b : Stored) : N :=
  match b with
  | StoredNode n => dag_encoded_size ext n
  | StoredRaw bytes => N.of_nat (length bytes)
  end.

(** [block.stat(cid, {timeout})]: the size of the block; a block the
    node cannot find runs into the timeout. *)
Definition block_stat (cid : string) : M N :=
  (emit (BlockStat cid) ;;
   b <- gets (fun w => ipfs_blocks (_ipfs w) !! cid) ;;
   match b with
   | Some b => ret (stored_size b)
   | None => throw TimeoutError
   end).

Definition dag_get (cid : string) (path : option string) : M Stored :=
  (emit (DagGet cid path) ;;
   b <- gets (fun w => ipfs_blocks (_ipfs w) !! cid) ;;
   match b with
   | Some b => ret (dag_resolve ext b path)
   | None => throw TimeoutError
   end).

(** ** The methods of [Dispatcher] *)

(** The [try] block of [_subscribe]. *)
Definition _subscribe_try (force : bool) : M unit :=
  (t <- gets topic ;;
   go <- (if force then ret true
          else (topics <- pubsub_ls ;; ret (negb (array_includes topics t)))) ;;
   if go : bool then
     (pubsub_unsubscribe t (Some HandleMessage) ;;
      pubsub_subscribe t HandleMessage ;;
      emit (PubsubLoggerLog "subscribed" t))
   else ret tt).

(** [_subscribe(force = false)].  The retry [this._subscribe(true)] of the
    [catch] block runs here as part of the call; [fuel] bounds the nesting
    of retries. *)
Fixpoint _subscribe_fuel (fuel : nat) (force : bool) (w : World) : option (Res unit * World) :=
  match fuel with
  | O => None
  | S fuel' =>
      match _subscribe_try force w with
      | (Ok _, w') => Some (Ok tt, w')
      | (Throw error, w') =>
          if includes (error_message error) "Already subscribed" then
            Some (emit (LoggerDebug (error_message error)) w')
          else if includes (error_message error) "The user aborted a request" then
            _subscribe_fuel fuel' true w'
          else
            Some (emit (LoggerErr (error_message error)) w')
      end
  end.

(** Every retry follows a thrown call, which used up one entry of the
    outcome script: one more than its length is fuel enough. *)
Definition _subscribe (force : bool) : M unit :=
  fun w =>
    default (Ok tt, w)
      (_subscribe_fuel (S (length (ipfs_faults (_ipfs w)))) force w).

(** [_resubscribe()]: arm a periodic timer and keep its handle, in place
    of whatever handle the field held. *)
Definition _resubscribe : M unit :=
  (handle <- setInterval ;;
   modify (fun w => with_resubscribeInterval w (Some handle))).

(** One firing of the timer with handle [timer]: the callback
    [async () => { await this._subscribe() }] runs while the timer is
    live. *)
Definition resubscribe_tick (timer : nat) : M unit :=
  (live <- gets (fun w => timers w !! timer) ;;
   match live with
   | Some true => _subscribe false
   | _ => ret tt
   end).

Definition init : M unit :=
  (p <- gets _peerId ;;
   peer <- match p with
           | Some s => if truthy s then ret s else ipfs_id_call
           | None => ipfs_id_call
           end ;;
   modify (fun w => with_peerId w (Some peer)) ;;
   _subscribe true ;;
   libp2p <- gets (fun w => ipfs_libp2p (_ipfs w)) ;;
   if negb (TESTING ext) && negb libp2p then _resubscribe else ret tt).

Definition _hashMessage (message : QueryFields) : string :=
  (* DAG-CBOR encoding *)
  let id := dagCBOR_serialize ext message in
  (* SHA-256 hash *)
  let id := sha256_hash ext id in
  (* Multihash encoding *)
  uint8arrays_toString_base64url ext (multihashes_encode_sha2_256 ext id).

Definition _buildQueryMessage (document : Document) : QueryPayload :=
  let message := {| qf_typ := QUERY; qf_doc := docid_toString (baseID (doc_id document)) |} in
  let id := _hashMessage message in
  {| qp_typ := qf_typ message; qp_doc := qf_doc message; qp_id := id |}.

(** [register]: the assignment [this._outstandingQueryIds[payload.id] = ...]
    files the id as an own property of the table (an id is the base64url
    form of a 34-byte multihash, 46 characters, so it is never [__proto__],
    the one key an assignment does not file). *)
Definition register (document : Document) : M unit :=
  (repository_add document ;;
   let payload := _buildQueryMessage document in
   modify (fun w => with_outstandingQueryIds w
                      (<[qp_id payload := baseID (doc_id document)]> (_outstandingQueryIds w))) ;;
   t <- gets topic ;;
   pubsub_publish t (JSON_stringify ext payload) ;;
   emit (PubsubLoggerLog "published" t)).

Definition unregister (docId : DocID) : M unit := repository_delete docId.

Definition _restrictRecordSize (cid : string) : M unit :=
  (size <- block_stat cid ;;
   if (IPFS_MAX_RECORD_SIZE <? size)%N then
     throw (Error (cid +:+ " record size " +:+ number_toString size +:+
                   " exceeds the maximum block size of " +:+
                   number_toString IPFS_MAX_RECORD_SIZE))
   else ret tt).

Definition storeCommit (data : CommitData) : M CID :=
  match data with
  | SignedCommitContainer jws linkedBlock =>
      (cid <- dag_put (DagJose jws) ;;
       block_put linkedBlock (cid_toString (jws_link jws)) ;;
       _restrictRecordSize (cid_toString (jws_link jws)) ;;
       _restrictRecordSize (cid_toString cid) ;;
       ret cid)
  | PlainCommit record =>
      (cid <- dag_put (DagCbor record) ;;
       _restrictRecordSize (cid_toString cid) ;;
       ret cid)
  end.

Definition retrieveCommit (cid : string) : M Stored :=
  (record <- dag_get cid None ;;
   _restrictRecordSize cid ;;
   ret record).

Definition retrieveFromIPFS (cid : string) (path : option string) : M Stored :=
  dag_get cid path.

Definition publish (message : PubsubMessage) : M unit :=
  (running <- gets _isRunning ;;
   if negb running then emit (LoggerErr "Dispatcher has been closed")
   else
     (t <- gets topic ;;
      pubsub_publish t (serialize ext message) ;;
      emit (PubsubLoggerLog "published" t))).

Definition publishTip (docId : DocID) (tip : CID) : M unit :=
  publish (MsgUpdate {| u_doc := baseID docId; u_tip := tip |}).

Definition _handleUpdateMessage (message : UpdateMessage) : M unit :=
  (has <- repository_has (u_doc message) ;;
   if has : bool then emit (DocumentEmitUpdate (repository_key (u_doc message)) (u_tip message))
   else ret tt).

Definition _handleQueryMessage (message : QueryMessage) : M unit :=
  (doc <- repository_get (q_doc message) ;;
   match doc with
   | Some doc =>
       publish (MsgResponse {| r_id := q_id message;
                               r_tips := {[ docid_toString (q_doc message) := doc_tip doc ]} |})
   | None => ret tt
   end).

Definition _handleResponseMessage (message : ResponseMessage) : M unit :=
  (expected <- gets (fun w => object_get (_outstandingQueryIds w) (r_id message)) ;;
   match expected with
   | None => ret tt   (* we're not expecting this RESPONSE message *)
   | Some expectedDocID =>
       match r_tips message !! property_toString expectedDocID with
       | None =>
           throw (Error ("Response to query with ID '" +:+ r_id message +:+
                         "' is missing expected new tip for docID '" +:+
                         property_toString expectedDocID +:+ "'"))
       | Some newTip =>
           (has <- repository_has_value expectedDocID ;;
            if has : bool then
              emit (DocumentEmitUpdate (repository_key_of expectedDocID) newTip)
            else ret tt)
       end
   end).

Definition handleMessage (message : IncomingMessage) : M unit :=
  (running <- gets _isRunning ;;
   if negb running then emit (LoggerErr "Dispatcher has been closed")
   else
     (peer <- gets _peerId ;;
      if bool_decide (Some (msg_from message) = peer) then ret tt
      else
        (parsed <- liftRes (deserialize ext (msg_data message)) ;;
         match parsed with
         | Known (MsgQuery m) => _handleQueryMessage m
         | Known (MsgResponse m) => _handleResponseMessage m
         | Known (MsgUpdate m) => _handleUpdateMessage m
         | UnknownTyp _ => throw (UnreachableCaseError "Unknown message type")
         end))).

Definition close : M unit :=
  (modify (fun w => with_isRunning w false) ;;
   handle <- gets _resubscribeInterval ;;
   clearInterval handle ;;
   repository_close ;;
   t <- gets topic ;;
   pubsub_unsubscribe t None).

(** ** Everything that can happen to a Dispatcher *)

Inductive Op : Type :=
| OpInit
| OpSubscribe (force : bool)
| OpResubscribeTick (timer : nat)
| OpRegister (document : Document)
| OpUnregister (docId : DocID)
| OpStoreCommit (data : CommitData)
| OpRetrieveCommit (cid : string)
| OpRetrieveFromIPFS (cid : string) (path : option string)
| OpPublishTip (docId : DocID) (tip : CID)
| OpHandleMessage (message : IncomingMessage)
| OpPublish (message : PubsubMessage)
| OpClose.

Definition discard {A} (m : M A) : M unit := (m ;; ret tt).

Definition exec (o : Op) : M unit :=
  match o with
  | OpInit => init
  | OpSubscribe force => _subscribe force
  | OpResubscribeTick timer => resubscribe_tick timer
  | OpRegister d => register d
  | OpUnregister id => unregister id
  | OpStoreCommit data => discard (storeCommit data)
  | OpRetrieveCommit cid => discard (retrieveCommit cid)
  | OpRetrieveFromIPFS cid path => discard (retrieveFromIPFS cid path)
  | OpPublishTip id tip => publishTip id tip
  | OpHandleMessage m => handleMessage m
  | OpPublish m => publish m
  | OpClose => close
  end.

(** The world after an operation, whether it returned or threw. *)
Definition step (o : Op) (w : World) : World := snd (exec o w).

Definition run (ops : list Op) (w : World) : World := fold_left (fun w o => step o w) ops w.

(** The effects an action adds to the trace. *)
Definition new_effects (before after : World) : list Effect :=
  drop (length (effects before)) (effects after).

(** The length of the outcome script still ahead. *)
Definition nfaults (w : World) : nat := length (ipfs_faults (_ipfs w)).

(** How often a document was handed the tip. *)
Definition updates_of (doc : string) (tip : CID) (l : list Effect) : nat :=
  length (filter (fun e => e = DocumentEmitUpdate doc tip) l).

End Methods.

(** Two worlds that differ at most in the trace and in the outcome script
    of the transport. *)
Definition same_state (w1 w2 : World) : Prop :=
  _peerId w1 = _peerId w2 /\ topic w1 = topic w2
  /\ _outstandingQueryIds w1 = _outstandingQueryIds w2
  /\ _isRunning w1 = _isRunning w2
  /\ _resubscribeInterval w1 = _resubscribeInterval w2
  /\ repository w1 = repository w2
  /\ ipfs_blocks (_ipfs w1) = ipfs_blocks (_ipfs w2)
  /\ ipfs_subscriptions (_ipfs w1) = ipfs_subscriptions (_ipfs w2)
  /\ timers w1 = timers w2.

(** The message of the error [_restrictRecordSize] throws. *)
Definition oversized_record_error (cid : string) (size : N) : JsError :=
  Error (cid +:+ " record size " +:+ number_toString size +:+
         " exceeds the maximum block size of " +:+ number_toString IPFS_MAX_RECORD_SIZE).

(** The message of the error [_handleResponseMessage] throws. *)
Definition malformed_response_error (id : string) (expectedDocID : DocID) : JsError :=
  Error ("Response to query with ID '" +:+ id +:+
         "' is missing expected new tip for docID '" +:+
         docid_toString expectedDocID +:+ "'").

(** The same error for whatever the table lookup yielded, by its string
    form. *)
Definition missing_tip_error (id expected : string) : JsError :=
  Error ("Response to query with ID '" +:+ id +:+
         "' is missing expected new tip for docID '" +:+ expected +:+ "'").

(** The block store after the puts of [storeCommit]: [dag.put] of the
    envelope, then [block.put] of the payload under the envelope's link;
    for any other commit the one [dag.put]. *)
Definition commit_puts (ext : External) (data : CommitData) (blocks : gmap string Stored)
  : gmap string Stored :=
  match data with
  | SignedCommitContainer jws linkedBlock =>
      <[cid_toString (jws_link jws) := StoredRaw linkedBlock]>
        (<[cid_toString (dag_cid ext (DagJose jws)) := StoredNode (DagJose jws)]> blocks)
  | PlainCommit record =>
      <[cid_toString (dag_cid ext (DagCbor record)) := StoredNode (DagCbor record)]> blocks
  end.

(** The CIDs under which [storeCommit] writes a commit, in the order it
    checks their sizes. *)
Definition commit_cids (ext : External) (data : CommitData) : list string :=
  match data with
  | SignedCommitContainer jws _ =>
      [cid_toString (jws_link jws); cid_toString (dag_cid ext (DagJose jws))]
  | PlainCommit record => [cid_toString (dag_cid ext (DagCbor record))]
  end.

(** Calls on the transport use up the outcome script: an action that
    returns leaves it no longer, one that throws leaves it shorter. *)
Definition consumes {A} (m : M A) : Prop :=
  forall w : World,
    match m w with
    | (Ok _, w') => (nfaults w' <= nfaults w)%nat
    | (Throw _, w') => (nfaults w' < nfaults w)%nat
    end.

(** An action that leaves the Outstanding Query Table as it found it,
    whether it returns or throws. *)
Definition keeps_table {A} (m : M A) : Prop :=
  forall w : World, _outstandingQueryIds (snd (m w)) = _outstandingQueryIds w.



(** The world after the guard of a closed dispatcher has logged. *)
Definition log_closed (w : World) : World :=
  with_effects w (effects w ++ [LoggerErr "Dispatcher has been closed"]).


(** ** A concrete setting for the examples

    Stand-ins for the external functions (the properties below hold for
    any), a node, a document and some worlds. *)
Module Example.

Definition ext : External := {|
  dagCBOR_serialize := fun f => String.list_byte_of_string (qf_doc f);
  sha256_hash := fun b => b;
  multihashes_encode_sha2_256 := fun b => Byte.x12 :: Byte.x20 :: b;
  uint8arrays_toString_base64url := String.string_of_list_byte;
  JSON_stringify := fun p => "{doc:" +:+ qp_doc p +:+ ",id:" +:+ qp_id p +:+ "}";
  serialize := fun _ => "message";
  deserialize := fun data => if String.eqb data "{typ:7}" then Ok (UnknownTyp 7)
                             else Throw (Error "Unexpected token");
  dag_cid := fun n => match n with
                      | DagJose j => mkCID ("jose-" +:+ jws_payload j)
                      | DagCbor r => mkCID ("cbor-" +:+ r)
                      end;
  dag_encoded_size := fun n => match n with
                               | DagJose _ => 1000
                               | DagCbor r => if String.eqb r "big" then 300000 else 1000
                               end%N;
  dag_resolve := fun s _ => s;
  TESTING := false |}.

Definition ipfs : Ipfs :=
  {| ipfs_id := "peer-1"; ipfs_libp2p := false; ipfs_blocks := ∅;
     ipfs_subscriptions := []; ipfs_faults := [] |}.

Definition fresh : World := new_Dispatcher ipfs "/ceramic/inmemory" ∅.

Definition docD : Document :=
  {| doc_id := {| docid_cid := mkCID "docD"; docid_commit := None |};
     doc_tip := mkCID "tip0" |}.

Definition tipZ : CID := mkCID "tipZ".


(** A RESPONSE to that query, carrying the tip of [docD]. *)
Definition response : ResponseMessage :=
  {| r_id := qp_id (_buildQueryMessage ext docD); r_tips := {[ "docD" := tipZ ]} |}.


(** A node on which the topic is subscribed already. *)
Definition subscribed : World := snd (init ext fresh).

(** A dispatcher that was initialized twice and then closed. *)
Definition closed_after_two_inits : World :=
  snd (close (snd (init ext (snd (init ext fresh))))).

(** A RESPONSE whose id is the name of an inherited member. *)
Definition response_constructor : ResponseMessage :=
  {| r_id := "constructor"; r_tips := {[ "docD" := tipZ ]} |}.

(** A node whose first subscribe call is aborted. *)
Definition aborting : World :=
  new_Dispatcher
    {| ipfs_id := "peer-1"; ipfs_libp2p := false; ipfs_blocks := ∅;
       ipfs_subscriptions := [];
       ipfs_faults := [None; Some (Error "The user aborted a request.")] |}
    "/ceramic/inmemory" ∅.

(** A node that aborts the first two subscribe attempts. *)
Definition aborting_twice : World :=
  new_Dispatcher
    {| ipfs_id := "peer-1"; ipfs_libp2p := false; ipfs_blocks := ∅;
       ipfs_subscriptions := [];
       ipfs_faults := [Some (Error "The user aborted a request.");
                       Some (Error "The user aborted a request.")] |}
    "/ceramic/inmemory" ∅.

End Example.

End Dispatcher.

(* ===================================================================== *)
(** * Further notions about the Dispatcher                               *)
(* ===================================================================== *)

Module DispatcherAux.

Import Dispatcher.
Open Scope string_scope.
Open Scope list_scope.

(** A publication on the pub/sub topic. *)
Definition is_publish (e : Effect) : bool :=
  match e with
  | PubsubPublish _ _ => true
  | _ => false
  end.

(** The second world is the first one with effects appended to its trace:
    nothing the dispatcher or the node holds has changed. *)
Definition appends (w w' : World) : Prop :=
  exists l : list Effect, w' = with_effects w (effects w ++ l).

(** The part of the world a call on the pub/sub transport cannot touch. *)
Definition transport_only (w w' : World) : Prop :=
  _peerId w' = _peerId w /\ topic w' = topic w
  /\ _outstandingQueryIds w' = _outstandingQueryIds w
  /\ _isRunning w' = _isRunning w
  /\ _resubscribeInterval w' = _resubscribeInterval w
  /\ repository w' = repository w
  /\ ipfs_blocks (_ipfs w') = ipfs_blocks (_ipfs w)
  /\ ipfs_id (_ipfs w') = ipfs_id (_ipfs w)
  /\ ipfs_libp2p (_ipfs w') = ipfs_libp2p (_ipfs w)
  /\ timers w' = timers w.

(** Whether [pubsub.ls()] lists the topic of the dispatcher. *)
Definition topic_listed (w : World) : bool :=
  array_includes (remove_dups (map fst (ipfs_subscriptions (_ipfs w)))) (topic w).

(** The calls by which [_subscribe] registers the dispatcher's handler. *)
Definition subscribe_calls (w : World) : list Effect :=
  [PubsubUnsubscribe (topic w) (Some HandleMessage);
   PubsubSubscribe (topic w) HandleMessage;
   PubsubLoggerLog "subscribed" (topic w)].

(** An action whose final world is related to its initial one, whether it
    returns or throws. *)
Definition frames {A} (R : World -> World -> Prop) (m : M A) : Prop :=
  forall w : World, R w (snd (m w)).

(** The block store is left as it was. *)
Definition same_blocks (w w' : World) : Prop :=
  ipfs_blocks (_ipfs w') = ipfs_blocks (_ipfs w).

(** The operations that write to the block store. *)
Definition writes_blocks (o : Op) : bool :=
  match o with
  | OpStoreCommit _ => true
  | _ => false
  end.


(** The same action run [n] times in a row, each time on the world the
    previous run left. *)
Fixpoint redeliver (n : nat) (m : M unit) (w : World) : World :=
  match n with
  | O => w
  | S k => redeliver k m (snd (m w))
  end.

(** The UPDATE message [publishTip] sends. *)
Definition update_message (docId : DocID) (tip : CID) : PubsubMessage :=
  MsgUpdate {| u_doc := baseID docId; u_tip := tip |}.

(** The RESPONSE a peer that tracks [doc] gives to the QUERY built for
    [document]. *)
Definition response_to (ext : External) (document doc : Document) : ResponseMessage :=
  {| r_id := qp_id (_buildQueryMessage ext document);
     r_tips := {[ docid_toString (baseID (doc_id document)) := doc_tip doc ]} |}.

(** The QUERY message a peer reads out of what [register] publishes. *)
Definition query_of (ext : External) (document : Document) : QueryMessage :=
  {| q_id := qp_id (_buildQueryMessage ext document);
     q_doc := baseID (doc_id document) |}.

(** ** A concrete setting with two peers *)
Module Example.

Definition docD : Document := Dispatcher.Example.docD.

(** The same document as the answering peer holds it, at a later tip. *)
Definition docD_remote : Document :=
  {| doc_id := doc_id docD; doc_tip := mkCID "tip9" |}.

Definition render (m : PubsubMessage) : string :=
  match m with
  | MsgUpdate u => "U|" +:+ docid_toString (u_doc u) +:+ "|" +:+ cid_toString (u_tip u)
  | MsgQuery q => "Q|" +:+ q_id q +:+ "|" +:+ docid_toString (q_doc q)
  | MsgResponse r => "R|" +:+ r_id r
  end.

(** A codec that knows the three messages of the examples. *)
Definition ext : External := {|
  dagCBOR_serialize := dagCBOR_serialize Dispatcher.Example.ext;
  sha256_hash := sha256_hash Dispatcher.Example.ext;
  multihashes_encode_sha2_256 := multihashes_encode_sha2_256 Dispatcher.Example.ext;
  uint8arrays_toString_base64url := uint8arrays_toString_base64url Dispatcher.Example.ext;
  JSON_stringify := fun p => "Q|" +:+ qp_id p +:+ "|" +:+ qp_doc p;
  serialize := render;
  deserialize := fun data =>
    if String.eqb data (render (update_message (doc_id docD) (mkCID "tip9")))
    then Ok (Known (update_message (doc_id docD) (mkCID "tip9")))
    else if String.eqb data (render (MsgQuery (query_of Dispatcher.Example.ext docD)))
    then Ok (Known (MsgQuery (query_of Dispatcher.Example.ext docD)))
    else if String.eqb data (render (MsgResponse (response_to Dispatcher.Example.ext docD docD_remote)))
    then Ok (Known (MsgResponse (response_to Dispatcher.Example.ext docD docD_remote)))
    else Throw (Error "Unexpected token");
  dag_cid := dag_cid Dispatcher.Example.ext;
  dag_encoded_size := dag_encoded_size Dispatcher.Example.ext;
  dag_resolve := dag_resolve Dispatcher.Example.ext;
  TESTING := false |}.

(** Peer 1 after [init]. *)
Definition peer1 : World := snd (init ext Dispatcher.Example.fresh).

(** Peer 2 after [init], tracking the document at its later tip. *)
Definition peer2 : World :=
  snd (init ext
         (new_Dispatcher
            {| ipfs_id := "peer-2"; ipfs_libp2p := false; ipfs_blocks := ∅;
               ipfs_subscriptions := []; ipfs_faults := [] |}
            "/ceramic/inmemory"
            {[ repository_key (doc_id docD) := docD_remote ]})).

(** A node whose store holds a block of 256,000 bytes and one of 256,001. *)
Definition sized_ext : External := {|
  dagCBOR_serialize := dagCBOR_serialize Dispatcher.Example.ext;
  sha256_hash := sha256_hash Dispatcher.Example.ext;
  multihashes_encode_sha2_256 := multihashes_encode_sha2_256 Dispatcher.Example.ext;
  uint8arrays_toString_base64url := uint8arrays_toString_base64url Dispatcher.Example.ext;
  JSON_stringify := JSON_stringify Dispatcher.Example.ext;
  serialize := serialize Dispatcher.Example.ext;
  deserialize := deserialize Dispatcher.Example.ext;
  dag_cid := dag_cid Dispatcher.Example.ext;
  dag_encoded_size := fun n => match n with
                               | DagCbor r => if String.eqb r "limit" then 256000 else 256001
                               | DagJose _ => 1000
                               end%N;
  dag_resolve := dag_resolve Dispatcher.Example.ext;
  TESTING := false |}.

Definition stocked : World :=
  new_Dispatcher
    {| ipfs_id := "peer-1"; ipfs_libp2p := false;
       ipfs_blocks := {[ "cbor-limit" := StoredNode (DagCbor "limit");
                         "cbor-over" := StoredNode (DagCbor "over") ]};
       ipfs_subscriptions := []; ipfs_faults := [] |}
    "/ceramic/inmemory" ∅.

End Example.

End DispatcherAux.

(* ===================================================================== *)
(** * The Dispatcher double of the document tests (document.test.ts)     *)
(* ===================================================================== *)

Module TestDispatcher.

Import Dispatcher.

(** What the tests store: a signed-commit container [{jws, linkedBlock}],
    an envelope, or any other record. *)
Inductive Rec : Type :=
| RecContainer (jws : JWS) (linkedBlock : list Byte.byte)
| RecJws (jws : JWS)
| RecPlain (record : string).

(** The libraries the double calls. *)
Record Libs : Type := mkLibs {
  JSON_stringify : Rec -> string;
  u8a_fromString : string -> list Byte.byte;
  sha256_hash : list Byte.byte -> list Byte.byte;
  dagCBOR_deserialize : list Byte.byte -> Rec;
  (* [new CID(1, 'sha2-256', body).toString()] *)
  cid_of_multihash : list Byte.byte -> string
}.

(** [clone.link = cidLink] *)
Definition set_link (jws : JWS) (link : CID) : JWS :=
  {| jws_payload := jws_payload jws; jws_signatures := jws_signatures jws; jws_link := link |}.

Section Double.

Variable libs : Libs.

(** [hash]: the CID of a string, a sha2-256 multihash ([0x12 0x20] and the
    digest). *)
Definition hash (data : string) : CID :=
  let body := [Byte.x12; Byte.x20] ++ sha256_hash libs (u8a_fromString libs data) in
  mkCID (cid_of_multihash libs body).

(** [_ipfs.dag.put(rec)] on the shared [recs]. *)
Definition dag_put (rec : Rec) (recs : gmap string Rec) : CID * gmap string Rec :=
  let cid := hash (JSON_stringify libs rec) in
  (cid, <[cid_toString cid := rec]> recs).

(** [_ipfs.dag.get(cid).value]; [None] is [undefined]. *)
Definition dag_get (cid : CID) (recs : gmap string Rec) : option Rec :=
  recs !! cid_toString cid.

Definition storeCommit (rec : Rec) (recs : gmap string Rec) : CID * gmap string Rec :=
  match rec with
  | RecContainer jws linkedBlock =>
      let block := dagCBOR_deserialize libs linkedBlock in
      let cidLink := hash (JSON_stringify libs block) in
      let recs := <[cid_toString cidLink := block]> recs in
      let clone := set_link jws cidLink in
      let cidJws := hash (JSON_stringify libs (RecJws clone)) in
      (cidJws, <[cid_toString cidJws := RecJws clone]> recs)
  | _ =>
      let cid := hash (JSON_stringify libs rec) in
      (cid, <[cid_toString cid := rec]> recs)
  end.

Definition retrieveCommit (cid : CID) (recs : gmap string Rec) : option Rec :=
  recs !! cid_toString cid.

(** The path is not used. *)
Definition retrieveFromIPFS (cid : CID) (path : option string) (recs : gmap string Rec)
  : option Rec :=
  recs !! cid_toString cid.

(** What [storeCommit] leaves in [recs] under the CID it returns. *)
Definition stored_form (rec : Rec) : Rec :=
  match rec with
  | RecContainer jws linkedBlock =>
      RecJws (set_link jws (hash (JSON_stringify libs (dagCBOR_deserialize libs linkedBlock))))
  | _ => rec
  end.

(** The keys [storeCommit] writes. *)
Definition written (rec : Rec) : list string :=
  match rec with
  | RecContainer jws linkedBlock =>
      let cidLink := hash (JSON_stringify libs (dagCBOR_deserialize libs linkedBlock)) in
      [cid_toString cidLink;
       cid_toString (hash (JSON_stringify libs (RecJws (set_link jws cidLink))))]
  | _ => [cid_toString (hash (JSON_stringify libs rec))]
  end.

End Double.

(** ** Stand-ins for the examples *)
Module Example.

Open Scope string_scope.

Definition libs : Libs := {|
  JSON_stringify := fun r => match r with
                             | RecContainer j _ => "container:" +:+ jws_payload j
                             | RecJws j => "jws:" +:+ jws_payload j +:+ "@" +:+ cid_toString (jws_link j)
                             | RecPlain s => "plain:" +:+ s
                             end;
  u8a_fromString := String.list_byte_of_string;
  sha256_hash := fun b => b;
  dagCBOR_deserialize := fun b => RecPlain (String.string_of_list_byte b);
  cid_of_multihash := String.string_of_list_byte |}.

Definition envelope : JWS :=
  {| jws_payload := "bbbb"; jws_signatures := ["cccc"]; jws_link := mkCID "given" |}.

Definition container : Rec := RecContainer envelope (String.list_byte_of_string "payload").

End Example.

End TestDispatcher.

(* ===================================================================== *)
(** * key-did-resolver: the P-256 mapper (secp256r1.ts)                  *)
(* ===================================================================== *)

Module Secp256r1.

Open Scope string_scope.

(** The encodings the mapper calls ([uint8arrays], [multibase],
    [multicodec]). *)
Record Codec : Type := mkCodec {
  base16_toString : list Byte.byte -> string;
  base16_fromString : string -> list Byte.byte;
  (* [u8a.toString(multibase.encode('base64url', octets))] *)
  multibase_base64url : list Byte.byte -> string;
  multibase_decode : string -> list Byte.byte;
  multicodec_rmPrefix : list Byte.byte -> list Byte.byte
}.

(** [s.slice(start, end)] for [0 <= start <= end]. *)
Definition slice (s : string) (start stop : nat) : string :=
  String.substring start (stop - start) s.

Record XY : Type := mkXY { xm : string; ym : string }.

Section Mapper.

Variable codec : Codec.

(** The two halves [publicKeyToXY] cuts the hex string into; a fractional
    [length/2] is truncated by [slice]. *)
Definition xHex (publicKeyHex : string) : string :=
  slice publicKeyHex 0 (String.length publicKeyHex / 2).

Definition yHex (publicKeyHex : string) : string :=
  slice publicKeyHex (String.length publicKeyHex / 2) (String.length publicKeyHex).

Definition publicKeyToXY (publicKeyHex : string) : XY :=
  let xOctet := base16_fromString codec (xHex publicKeyHex) in
  let yOctet := base16_fromString codec (yHex publicKeyHex) in
  {| xm := multibase_base64url codec xOctet; ym := multibase_base64url codec yOctet |}.

Definition pubKeyBytesToHex (pubKeyBytes : list Byte.byte) : string :=
  base16_toString codec pubKeyBytes.

Definition pubKeyBytesToXY (pubKeyBytes : list Byte.byte) : XY :=
  publicKeyToXY (pubKeyBytesToHex pubKeyBytes).

Definition fingerprintToHex (fingerprint : string) : string :=
  let buf := multibase_decode codec fingerprint in
  let bufnoPrefix := multicodec_rmPrefix codec buf in
  base16_toString codec bufnoPrefix.

Definition fingerprintToXY (fingerprint : string) : XY :=
  publicKeyToXY (fingerprintToHex fingerprint).

End Mapper.

(** ** Lower-case hexadecimal, for the examples *)
Module Example.

Definition hex_digit (n : N) : Ascii.ascii :=
  Ascii.ascii_of_N (if (n <? 10)%N then 48 + n else 87 + n).

Definition hex_value (c : Ascii.ascii) : N :=
  let n := Ascii.N_of_ascii c in
  if (n <? 58)%N then n - 48 else n - 87.

Fixpoint to_hex (bytes : list Byte.byte) : string :=
  match bytes with
  | [] => EmptyString
  | b :: rest =>
      String (hex_digit (Byte.to_N b / 16)) (String (hex_digit (Byte.to_N b mod 16)) (to_hex rest))
  end.

Fixpoint from_hex (s : string) : list Byte.byte :=
  match s with
  | String hi (String lo rest) =>
      match Byte.of_N (hex_value hi * 16 + hex_value lo) with
      | Some b => b :: from_hex rest
      | None => []
      end
  | _ => []
  end.

Definition codec : Codec := {|
  base16_toString := to_hex;
  base16_fromString := from_hex;
  multibase_base64url := fun octets => "u" +:+ to_hex octets;
  multibase_decode := String.list_byte_of_string;
  multicodec_rmPrefix := drop 2 |}.

End Example.

End Secp256r1.

(* ===================================================================== *)
(** * key-did-resolver: point decompression on P-384 (secp384r1.js)      *)
(* ===================================================================== *)

Module Secp384r1.

Open Scope Z_scope.

Definition prime : Z := 2 ^ 384 - 2 ^ 128 - 2 ^ 96 + 2 ^ 32 - 1.

Definition b : Z :=
  27580193559959705877849011840389048093056905856361568521428707301988689241309860865136260764883745107765439761230575.

Definition pIdent : Z := (prime + 1) / 4.

Record Point : Type := mkPoint { x : Z; y : Z }.

Section Decompress.

(** [bigintModArith.modPow] and the reading of bytes as a base-10 number
    ([BigInt(u8a.toString(x, 'base10'))]). *)
Variable modPow : Z -> Z -> Z -> Z.
Variable base10 : list Byte.byte -> Z.

(** [ECPointDecompress(comp)] on a byte array; [None] when it throws (on
    an empty array [comp[0] - 2] is [NaN], which [BigInt] rejects). *)
Definition ECPointDecompress (comp : list Byte.byte) : option Point :=
  match comp with
  | [] => None
  | c :: rest =>
      let signY := Z.of_N (Byte.to_N c) - 2 in
      let xBig := base10 rest in
      let a := xBig ^ 3 - xBig * 3 + b in
      let yBig := modPow a pIdent prime in
      let yBig := if Z.eqb (Z.rem yBig 2) signY then yBig else prime - yBig in
      Some {| x := xBig; y := yBig |}
  end.

End Decompress.

End Secp384r1.

(* ===================================================================== *)
(** * Properties of fork choice                                          *)
(* ===================================================================== *)

Module ForkChoiceFacts.

Import ForkChoice.

(** ** The identifier order is a strict total order *)

Lemma id_ltb_irrefl (a : Identifier) : id_ltb a a = false.
Proof.
  induction a as [|x a IH]; simpl; [reflexivity|].
  rewrite N.ltb_irrefl. exact IH.
Qed.

Lemma id_ltb_trans (a b c : Identifier) :
  id_ltb a b = true -> id_ltb b c = true -> id_ltb a c = true.
Proof.
  revert b c. induction a as [|x a IH]; intros [|y b] [|z c]; simpl; try congruence.
  destruct (N.ltb_spec (Byte.to_N x) (Byte.to_N y)),
           (N.ltb_spec (Byte.to_N y) (Byte.to_N x)),
           (N.ltb_spec (Byte.to_N y) (Byte.to_N z)),
           (N.ltb_spec (Byte.to_N z) (Byte.to_N y)),
           (N.ltb_spec (Byte.to_N x) (Byte.to_N z)),
           (N.ltb_spec (Byte.to_N z) (Byte.to_N x));
    try congruence; try lia.
  apply IH.
Qed.

Lemma to_N_inj (x y : Byte.byte) : Byte.to_N x = Byte.to_N y -> x = y.
Proof.
  intros H. pose proof (Byte.of_to_N x) as Hx. pose proof (Byte.of_to_N y) as Hy.
  rewrite H in Hx. congruence.
Qed.

Lemma id_ltb_total (a b : Identifier) :
  id_ltb a b = false -> id_ltb b a = false -> a = b.
Proof.
  revert b. induction a as [|x a IH]; intros [|y b]; simpl; try congruence.
  destruct (N.ltb_spec (Byte.to_N x) (Byte.to_N y)),
           (N.ltb_spec (Byte.to_N y) (Byte.to_N x)); try congruence; try lia.
  intros H1 H2. f_equal; [apply to_N_inj; lia | apply IH; assumption].
Qed.

Lemma id_ltb_asym (a b : Identifier) : id_ltb a b = true -> id_ltb b a = false.
Proof.
  intros H. destruct (id_ltb b a) eqn:E; [|reflexivity].
  pose proof (id_ltb_trans _ _ _ H E) as Hc. rewrite id_ltb_irrefl in Hc. discriminate.
Qed.

(** ** Fork choice picks the minimum of a strict total order *)

Section Order.

Variable fetchLog : Identifier -> Log.

Local Abbreviation precedes := (precedes fetchLog).
Local Abbreviation forkChoice := (forkChoice fetchLog).
Local Abbreviation handleTip := (handleTip fetchLog).
Local Abbreviation handleTips := (handleTips fetchLog).

Lemma precedes_irrefl A : ~ precedes A A.
Proof.
  unfold precedes. rewrite id_ltb_irrefl. intros [H|[[_ H]|[_ H]]]; [lia|lia|discriminate].
Qed.

Lemma precedes_trans A B C : precedes A B -> precedes B C -> precedes A C.
Proof.
  unfold precedes.
  destruct (rank fetchLog A) as [a1 a2], (rank fetchLog B) as [b1 b2],
           (rank fetchLog C) as [c1 c2]; simpl.
  intros [H1|[[H1 H1']|[H1 H1']]] [H2|[[H2 H2']|[H2 H2']]];
    try (injection H1 as -> ->); try (injection H2 as -> ->);
    try (left; lia); try (right; left; split; lia).
  right; right. split; [reflexivity|]. eapply id_ltb_trans; eassumption.
Qed.

Lemma precedes_total A B : A <> B -> precedes A B \/ precedes B A.
Proof.
  intros Hne. unfold precedes.
  destruct (rank fetchLog A) as [a1 a2], (rank fetchLog B) as [b1 b2]; simpl.
  destruct (Z.lt_total a1 b1) as [H|[H|H]]; [left; left; lia| |right; left; lia].
  destruct (Z.lt_total a2 b2) as [H'|[H'|H']];
    [left; right; left; lia| |right; right; left; lia].
  subst. destruct (id_ltb A B) eqn:E1; [left; right; right; split; reflexivity|].
  destruct (id_ltb B A) eqn:E2; [right; right; right; split; reflexivity|].
  destruct Hne. apply id_ltb_total; assumption.
Qed.

Lemma precedes_asym A B : precedes A B -> ~ precedes B A.
Proof. intros H1 H2. exact (precedes_irrefl A (precedes_trans _ _ _ H1 H2)). Qed.

(** The winner is one of the two logs and nothing beats it. *)
Lemma forkChoice_takes_candidate A B : precedes B A -> forkChoice A B = B.
Proof.
  unfold precedes, rank, ForkChoice.forkChoice, smallerId.
  destruct (anchorTime fetchLog A) as [ta|], (anchorTime fetchLog B) as [tb|]; simpl;
    intros [H|[[H1 H2]|[H1 H2]]]; try lia; try discriminate;
    try reflexivity;
    repeat match goal with
           | |- context [(?x <? ?y)%Z] => destruct (Z.ltb_spec x y)
           | |- context [(?x <? ?y)%nat] => destruct (Nat.ltb_spec x y)
           end; try reflexivity; try lia;
    try (injection H1 as H1; try lia); rewrite H2; reflexivity.
Qed.

Lemma forkChoice_keeps_current A B : ~ precedes B A -> forkChoice A B = A.
Proof.
  unfold precedes, rank, ForkChoice.forkChoice, smallerId.
  destruct (anchorTime fetchLog A) as [ta|], (anchorTime fetchLog B) as [tb|]; simpl;
    intros H; try reflexivity; try (destruct H; left; lia);
    repeat match goal with
           | |- context [(?x <? ?y)%Z] => destruct (Z.ltb_spec x y)
           | |- context [(?x <? ?y)%nat] => destruct (Nat.ltb_spec x y)
           end; try reflexivity; try (destruct H; right; left; split; lia);
    destruct (id_ltb B A) eqn:E; try reflexivity;
    destruct H; right; right; (split; [f_equal; lia | reflexivity]).
Qed.

Lemma precedes_dec A B : precedes A B \/ ~ precedes A B.
Proof.
  destruct (decide (A = B)) as [->|Hne]; [right; apply precedes_irrefl|].
  destruct (precedes_total A B Hne) as [H|H]; [left; exact H|right].
  apply precedes_asym; exact H.
Qed.

Lemma forkChoice_in A B : forkChoice A B = A \/ forkChoice A B = B.
Proof.
  destruct (precedes_dec B A) as [H|H];
    [right; apply forkChoice_takes_candidate | left; apply forkChoice_keeps_current]; exact H.
Qed.

Lemma forkChoice_least_l A B : ~ precedes A (forkChoice A B).
Proof.
  destruct (precedes_dec B A) as [H|H].
  - rewrite forkChoice_takes_candidate by exact H. apply precedes_asym; exact H.
  - rewrite forkChoice_keeps_current by exact H. apply precedes_irrefl.
Qed.

Lemma forkChoice_least_r A B : ~ precedes B (forkChoice A B).
Proof.
  destruct (precedes_dec B A) as [H|H].
  - rewrite forkChoice_takes_candidate by exact H. apply precedes_irrefl.
  - rewrite forkChoice_keeps_current by exact H. exact H.
Qed.

Lemma not_precedes_trans A B C : ~ precedes B A -> ~ precedes C B -> ~ precedes C A.
Proof.
  intros H1 H2 H3. destruct (decide (A = B)) as [->|Hne]; [tauto|].
  destruct (precedes_total A B Hne) as [H|H]; [|tauto].
  apply H2. eapply precedes_trans; eassumption.
Qed.

Lemma least_unique X Y : ~ precedes X Y -> ~ precedes Y X -> X = Y.
Proof.
  intros H1 H2. destruct (decide (X = Y)) as [|Hne]; [assumption|].
  destruct (precedes_total X Y Hne); tauto.
Qed.

Lemma forkChoice_idem A : forkChoice A A = A.
Proof. apply forkChoice_keeps_current, precedes_irrefl. Qed.

Lemma forkChoice_comm A B : forkChoice A B = forkChoice B A.
Proof.
  apply least_unique.
  - destruct (forkChoice_in A B) as [->| ->];
      [apply forkChoice_least_r | apply forkChoice_least_l].
  - destruct (forkChoice_in B A) as [->| ->];
      [apply forkChoice_least_r | apply forkChoice_least_l].
Qed.

Lemma forkChoice_swap S A B :
  forkChoice (forkChoice S A) B = forkChoice (forkChoice S B) A.
Proof.
  assert (Hleast : forall X Y W,
             W = S \/ W = X \/ W = Y ->
             ~ precedes W (forkChoice (forkChoice S X) Y)).
  { intros X Y W [->|[->| ->]].
    - eapply not_precedes_trans; [apply forkChoice_least_l|apply forkChoice_least_l].
    - eapply not_precedes_trans; [apply forkChoice_least_l|apply forkChoice_least_r].
    - apply forkChoice_least_r. }
  assert (Hin : forall X Y,
             let r := forkChoice (forkChoice S X) Y in r = S \/ r = X \/ r = Y).
  { intros X Y r. subst r.
    destruct (forkChoice_in (forkChoice S X) Y) as [->| ->]; [|tauto].
    destruct (forkChoice_in S X) as [->| ->]; tauto. }
  apply least_unique.
  - apply (Hleast B A). destruct (Hin A B) as [H|[H|H]]; rewrite H; tauto.
  - apply (Hleast A B). destruct (Hin B A) as [H|[H|H]]; rewrite H; tauto.
Qed.

Lemma handleTip_tip cur cand : fst (handleTip cur cand) = forkChoice cur cand.
Proof.
  unfold ForkChoice.handleTip. destruct (decide (cand = cur)) as [->|]; simpl;
    [symmetry; apply forkChoice_idem | reflexivity].
Qed.

Lemma handleTips_perm cur (l1 l2 : list Identifier) :
  Permutation l1 l2 -> handleTips cur l1 = handleTips cur l2.
Proof.
  unfold ForkChoice.handleTips. intros HP. revert cur.
  induction HP as [|x l l' _ IH|x y l|l l' l'' _ IH1 _ IH2]; intros cur; simpl.
  - reflexivity.
  - apply IH.
  - rewrite !handleTip_tip, forkChoice_swap. reflexivity.
  - rewrite IH1. apply IH2.
Qed.

Lemma forkChoice_absorb c t : forkChoice (forkChoice c t) t = forkChoice c t.
Proof.
  destruct (forkChoice_in c t) as [E|E].
  - apply forkChoice_keeps_current. apply forkChoice_least_r.
  - rewrite E. apply forkChoice_idem.
Qed.

Lemma handleTips_redeliver cur (l : list Identifier) t :
  t ∈ l -> fst (handleTip (handleTips cur l) t) = handleTips cur l.
Proof.
  intros Hin. apply list_elem_of_In, in_split in Hin. destruct Hin as (l1 & l2 & ->).
  unfold ForkChoice.handleTips. rewrite fold_left_app. simpl.
  generalize (fold_left (fun c t0 => fst (handleTip c t0)) l1 cur). intros c.
  rewrite !handleTip_tip. revert c.
  induction l2 as [|u l2 IH]; intros c; simpl.
  - apply forkChoice_absorb.
  - rewrite handleTip_tip, forkChoice_swap. apply IH.
Qed.

Lemma handleTip_eq cur cand :
  handleTip cur cand = (forkChoice cur cand, negb (bool_decide (forkChoice cur cand = cur))).
Proof.
  unfold ForkChoice.handleTip. destruct (decide (cand = cur)) as [->|]; [|reflexivity].
  rewrite forkChoice_idem, bool_decide_eq_true_2 by reflexivity. reflexivity.
Qed.

Lemma handleTip_unchanged cur cand :
  fst (handleTip cur cand) = cur -> handleTip cur cand = (cur, false).
Proof.
  rewrite handleTip_eq. simpl. intros ->.
  rewrite bool_decide_eq_true_2 by reflexivity. reflexivity.
Qed.

End Order.

(** The test "handles basic conflict": the document on the later-anchored
    log takes the earlier-anchored tip, the document on the earlier-anchored
    log keeps its own. *)
Lemma handles_basic_conflict :
  handleTip Example.store Example.tipInvalidUpdate Example.tipValidUpdate
    = (Example.tipValidUpdate, true)
  /\ handleTip Example.store Example.tipValidUpdate Example.tipInvalidUpdate
     = (Example.tipValidUpdate, false).
Proof. split; vm_compute; reflexivity. Qed.

(** C1. Fork choice is order-independent.  For every store and current tip:
    delivering two tips [A] and [B] in either order ends at the same tip;
    delivering [A] again right after it was handled changes nothing and
    fires no [change] event; more generally, any two orders of delivery of
    the same tips end at the same tip, and re-delivering any tip already
    delivered changes nothing. *)
Theorem fork_choice_order_independent
    (fetchLog : Identifier -> Log) (current A B : Identifier) :
  fst (handleTip fetchLog (fst (handleTip fetchLog current A)) B)
    = fst (handleTip fetchLog (fst (handleTip fetchLog current B)) A)
  /\ handleTip fetchLog (fst (handleTip fetchLog current A)) A
      = (fst (handleTip fetchLog current A), false)
  /\ (forall tips1 tips2 : list Identifier,
        Permutation tips1 tips2 ->
        handleTips fetchLog current tips1 = handleTips fetchLog current tips2)
  /\ (forall (tips : list Identifier) (t : Identifier),
        t ∈ tips ->
        handleTip fetchLog (handleTips fetchLog current tips) t
        = (handleTips fetchLog current tips, false)).
Proof.
  split; [|split; [|split]].
  - rewrite !handleTip_tip. apply forkChoice_swap.
  - apply handleTip_unchanged. rewrite !handleTip_tip. apply forkChoice_absorb.
  - intros tips1 tips2 HP. apply handleTips_perm; exact HP.
  - intros tips t Hin. apply handleTip_unchanged, handleTips_redeliver; exact Hin.
Qed.

Lemma fork_choice_order_independent_witness :
  handleTips Example.store Example.tipS [Example.tipA; Example.tipB]
    = handleTips Example.store Example.tipS [Example.tipB; Example.tipA]
  /\ handleTip Example.store
       (handleTips Example.store Example.tipS [Example.tipA; Example.tipB]) Example.tipB
     = (handleTips Example.store Example.tipS [Example.tipA; Example.tipB], false).
Proof.
  destruct (fork_choice_order_independent Example.store Example.tipS Example.tipA Example.tipB)
    as (_ & _ & Hperm & Hagain).
  split.
  - apply Hperm. apply perm_swap.
  - apply (Hagain [Example.tipA; Example.tipB] Example.tipB).
    apply list_elem_of_In. simpl. right. left. reflexivity.
Defined.

(** C2. When exactly one of two competing logs has an anchored tip, fork
    choice selects the anchored log, whichever of the two is the current
    one and whatever the lengths of the two logs. *)
Theorem anchored_log_wins
    (fetchLog : Identifier -> Log) (anchored other : Identifier) :
  isAnchored fetchLog anchored = true ->
  isAnchored fetchLog other = false ->
  forkChoice fetchLog anchored other = anchored
  /\ forkChoice fetchLog other anchored = anchored
  /\ fst (handleTip fetchLog anchored other) = anchored
  /\ handleTip fetchLog other anchored = (anchored, true).
Proof.
  unfold isAnchored. intros Ha Ho.
  assert (E1 : forkChoice fetchLog anchored other = anchored).
  { unfold forkChoice.
    destruct (anchorTime fetchLog anchored), (anchorTime fetchLog other);
      try discriminate; reflexivity. }
  assert (E2 : forkChoice fetchLog other anchored = anchored).
  { unfold forkChoice.
    destruct (anchorTime fetchLog anchored), (anchorTime fetchLog other);
      try discriminate; reflexivity. }
  assert (Hne : anchored <> other).
  { intros ->. rewrite Ho in Ha. discriminate. }
  split; [exact E1|]. split; [exact E2|]. split.
  - rewrite handleTip_tip. exact E1.
  - rewrite handleTip_eq, E2. rewrite bool_decide_eq_false_2 by exact Hne. reflexivity.
Qed.

Lemma anchored_log_wins_witness :
  (logLength Example.store Example.tipA < logLength Example.store Example.tipB)%nat
  /\ forkChoice Example.store Example.tipB Example.tipA = Example.tipA.
Proof.
  split; [vm_compute; lia|].
  apply (anchored_log_wins Example.store Example.tipA Example.tipB); reflexivity.
Defined.

End ForkChoiceFacts.

(* ===================================================================== *)
(** * Properties of the Dispatcher                                       *)
(* ===================================================================== *)

Module DispatcherFacts.

Import Dispatcher.
Open Scope string_scope.
Open Scope list_scope.

Ltac unfold_monad :=
  unfold bind, ret, gets, modify, emit, throw, liftRes, discard in *.

(** ** Bookkeeping on the trace *)

Lemma new_effects_app (w w' : World) (l : list Effect) :
  effects w' = effects w ++ l -> new_effects w w' = l.
Proof. unfold new_effects. intros ->. apply drop_app_length. Qed.

(** ** Query ids *)

(** C3. The correlation id of the QUERY built for a document is the
    base64url rendering of the sha2-256 multihash of the dag-cbor
    serialization of [{typ: QUERY, doc}], [doc] being the string form of
    the document's base id; it depends on nothing else of the document, so
    the same logical query always carries the same id.  [register] files
    the query under this id and publishes the payload that carries it. *)
Theorem query_id_is_canonical_hash (ext : External) (document : Document) :
  let fields := {| qf_typ := QUERY; qf_doc := docid_toString (baseID (doc_id document)) |} in
  let id := uint8arrays_toString_base64url ext
              (multihashes_encode_sha2_256 ext
                 (sha256_hash ext (dagCBOR_serialize ext fields))) in
  _buildQueryMessage ext document
    = {| qp_typ := QUERY; qp_doc := docid_toString (baseID (doc_id document)); qp_id := id |}
  /\ (forall (commit : option CID) (tip : CID),
        _buildQueryMessage ext
          {| doc_id := {| docid_cid := docid_cid (doc_id document); docid_commit := commit |};
             doc_tip := tip |}
        = _buildQueryMessage ext document)
  /\ (forall w : World,
        let w' := snd (register ext document w) in
        _outstandingQueryIds w' !! id = Some (baseID (doc_id document))
        /\ new_effects w w'
           = [PubsubPublish (topic w) (JSON_stringify ext (_buildQueryMessage ext document));
              PubsubLoggerLog "published" (topic w)]).
Proof.
  cbv zeta. split; [reflexivity|]. split; [reflexivity|].
  intros w. split.
  - unfold register, repository_add, pubsub_publish. unfold_monad. simpl.
    apply lookup_insert_eq.
  - apply new_effects_app.
    unfold register, repository_add, pubsub_publish. unfold_monad. simpl.
    rewrite <- app_assoc. reflexivity.
Qed.

(** ** Responses *)

Lemma object_get_own (object : gmap string DocID) (key : string) (docId : DocID) :
  object !! key = Some docId -> object_get object key = Some (OwnProperty docId).
Proof. unfold object_get. intros ->. reflexivity. Qed.


(** What [_handleResponseMessage] does, case by case. *)
Lemma handleResponseMessage_cases (message : ResponseMessage) (w : World) :
  _handleResponseMessage message w =
  match object_get (_outstandingQueryIds w) (r_id message) with
  | None => (Ok tt, w)
  | Some expected =>
      match r_tips message !! property_toString expected with
      | None =>
          (Throw (missing_tip_error (r_id message) (property_toString expected)), w)
      | Some newTip =>
          match expected with
          | OwnProperty expectedDocID =>
              if bool_decide (is_Some (repository w !! repository_key expectedDocID)) then
                (Ok tt, with_effects w
                          (effects w
                           ++ [DocumentEmitUpdate (repository_key expectedDocID) newTip]))
              else (Ok tt, w)
          | InheritedMember _ => (Ok tt, w)
          end
      end
  end.
Proof.
  unfold _handleResponseMessage, repository_has_value, repository_has.
  unfold bind at 1. cbn [gets].
  destruct (object_get (_outstandingQueryIds w) (r_id message)) as [expected|];
    [|reflexivity].
  destruct (r_tips message !! property_toString expected) as [tip|]; [|reflexivity].
  destruct expected as [d|name]; [|reflexivity].
  unfold bind, gets, emit, modify, ret. cbn [repository_key_of].
  destruct (bool_decide _); reflexivity.
Qed.

(** The same for an id that is filed in the table. *)
Lemma handleResponseMessage_filed
    (message : ResponseMessage) (expectedDocID : DocID) (w : World) :
  _outstandingQueryIds w !! r_id message = Some expectedDocID ->
  _handleResponseMessage message w =
  match r_tips message !! docid_toString expectedDocID with
  | None => (Throw (malformed_response_error (r_id message) expectedDocID), w)
  | Some newTip =>
      if bool_decide (is_Some (repository w !! repository_key expectedDocID)) then
        (Ok tt, with_effects w
                  (effects w ++ [DocumentEmitUpdate (repository_key expectedDocID) newTip]))
      else (Ok tt, w)
  end.
Proof.
  intros Hid. rewrite handleResponseMessage_cases, (object_get_own _ _ _ Hid).
  reflexivity.
Qed.

(** A RESPONSE that reaches the [switch] of [handleMessage] is handled by
    [_handleResponseMessage]. *)
Lemma handleMessage_response
    (ext : External) (message : IncomingMessage) (m : ResponseMessage) (w : World) :
  _isRunning w = true ->
  _peerId w <> Some (msg_from message) ->
  deserialize ext (msg_data message) = Ok (Known (MsgResponse m)) ->
  handleMessage ext message w = _handleResponseMessage m w.
Proof.
  intros Hrun Hfrom Hparse. unfold handleMessage.
  unfold bind at 1. cbn [gets]. rewrite Hrun. cbn [negb].
  unfold bind at 1. cbn [gets]. rewrite bool_decide_eq_false_2 by congruence.
  unfold bind at 1, liftRes. rewrite Hparse. reflexivity.
Qed.


(** C5 as stated also fails for an id that was never filed: no query is
    outstanding at all, yet a RESPONSE with the id [constructor] is not
    ignored; the lookup yields the function [Object] and handling throws. *)
Lemma response_with_inherited_id_is_not_ignored :
  _outstandingQueryIds Example.fresh = ∅
  /\ _handleResponseMessage Example.response_constructor Example.fresh
     = (Throw (Error ("Response to query with ID 'constructor' is missing expected new tip "
                      +:+ "for docID 'function Object() { [native code] }'")),
        Example.fresh).
Proof. split; vm_compute; reflexivity. Qed.


(** C6 fails on the code: after [register] has sent the QUERY for a
    document, the first RESPONSE carrying the query id hands the document
    the tip, and so does a second RESPONSE with the same id; the entry of
    the table is still there after both. *)
Theorem second_response_is_processed_again
    (ext : External) (document : Document) (tipZ : CID) (w : World) :
  let D := baseID (doc_id document) in
  let Q := qp_id (_buildQueryMessage ext document) in
  let response := {| r_id := Q; r_tips := {[ docid_toString D := tipZ ]} |} in
  let w1 := snd (register ext document w) in
  let w2 := snd (_handleResponseMessage response w1) in
  let w3 := snd (_handleResponseMessage response w2) in
  new_effects w1 w2 = [DocumentEmitUpdate (docid_toString D) tipZ]
  /\ new_effects w2 w3 = [DocumentEmitUpdate (docid_toString D) tipZ]
  /\ updates_of (docid_toString D) tipZ (new_effects w1 w3) = 2
  /\ _outstandingQueryIds w3 !! Q = Some D.
Proof.
  cbv zeta.
  set (Q := qp_id (_buildQueryMessage ext document)).
  set (D := baseID (doc_id document)).
  set (response := {| r_id := Q; r_tips := {[ docid_toString D := tipZ ]} |}).
  set (w1 := snd (register ext document w)).
  assert (Ht1 : _outstandingQueryIds w1 !! Q = Some D).
  { subst w1. unfold register, repository_add, pubsub_publish. unfold_monad. simpl.
    apply lookup_insert_eq. }
  assert (Hr1 : repository w1 !! repository_key D = Some document).
  { subst w1. unfold register, repository_add, pubsub_publish. unfold_monad. simpl.
    apply lookup_insert_eq. }
  assert (Hstep : forall w0 : World,
             _outstandingQueryIds w0 !! Q = Some D ->
             repository w0 !! repository_key D = Some document ->
             _handleResponseMessage response w0
             = (Ok tt, with_effects w0 (effects w0 ++ [DocumentEmitUpdate (docid_toString D) tipZ]))).
  { intros w0 Ht Hr. rewrite (handleResponseMessage_filed response D w0 Ht). simpl.
    rewrite lookup_singleton_eq. rewrite Hr.
    rewrite bool_decide_eq_true_2 by (eexists; reflexivity). reflexivity. }
  rewrite (Hstep w1 Ht1 Hr1). cbn [snd].
  set (w2 := with_effects w1 (effects w1 ++ [DocumentEmitUpdate (docid_toString D) tipZ])).
  rewrite (Hstep w2 Ht1 Hr1). cbn [snd].
  repeat split.
  - apply new_effects_app. reflexivity.
  - apply new_effects_app. reflexivity.
  - erewrite new_effects_app by (simpl; rewrite <- app_assoc; reflexivity).
    unfold updates_of. cbn [app]. rewrite !filter_cons_True by reflexivity. reflexivity.
  - exact Ht1.
Qed.

(** ** Record size *)

Lemma restrictRecordSize_stored (ext : External) (cid : string) (b : Stored) (w : World) :
  ipfs_blocks (_ipfs w) !! cid = Some b ->
  _restrictRecordSize ext cid w
  = (if (IPFS_MAX_RECORD_SIZE <? stored_size ext b)%N
     then Throw (oversized_record_error cid (stored_size ext b))
     else Ok tt,
     with_effects w (effects w ++ [BlockStat cid])).
Proof.
  intros Hb. unfold _restrictRecordSize, block_stat. unfold_monad. simpl.
  rewrite Hb. destruct (_ <? _)%N; reflexivity.
Qed.

(** Under the CIDs of a commit, what the puts of [storeCommit] leave does
    not depend on what the store held before. *)
Lemma commit_puts_lookup
    (ext : External) (data : CommitData) (blocks : gmap string Stored) (cid : string) :
  cid ∈ commit_cids ext data ->
  commit_puts ext data blocks !! cid = commit_puts ext data ∅ !! cid.
Proof.
  destruct data as [jws linkedBlock|record]; simpl; intros Hin;
    apply list_elem_of_In in Hin; simpl in Hin.
  - destruct Hin as [<-|[<-|[]]].
    + rewrite !lookup_insert_eq. reflexivity.
    + destruct (decide (cid_toString (jws_link jws) = cid_toString (dag_cid ext (DagJose jws))))
        as [E|E].
      * rewrite E, !lookup_insert_eq. reflexivity.
      * rewrite !(lookup_insert_ne _ _ _ _ E), !lookup_insert_eq. reflexivity.
  - destruct Hin as [<-|[]]. rewrite !lookup_insert_eq. reflexivity.
Qed.

Lemma commit_puts_stored
    (ext : External) (data : CommitData) (blocks : gmap string Stored) (cid : string) :
  cid ∈ commit_cids ext data -> is_Some (commit_puts ext data blocks !! cid).
Proof.
  destruct data as [jws linkedBlock|record]; simpl; intros Hin;
    apply list_elem_of_In in Hin; simpl in Hin.
  - destruct Hin as [<-|[<-|[]]].
    + rewrite lookup_insert_eq. eexists; reflexivity.
    + destruct (decide (cid_toString (jws_link jws) = cid_toString (dag_cid ext (DagJose jws))))
        as [E|E].
      * rewrite E, lookup_insert_eq. eexists; reflexivity.
      * rewrite (lookup_insert_ne _ _ _ _ E), lookup_insert_eq. eexists; reflexivity.
  - destruct Hin as [<-|[]]. rewrite lookup_insert_eq. eexists; reflexivity.
Qed.

(** How [storeCommit] ends, by the sizes of the blocks it finds under the
    CIDs of the commit once it has put them. *)
Lemma storeCommit_signed
    (ext : External) (jws : JWS) (linkedBlock : list Byte.byte) (w : World) :
  let c := cid_toString (dag_cid ext (DagJose jws)) in
  let l := cid_toString (jws_link jws) in
  let w1 := snd (block_put linkedBlock l (snd (dag_put ext (DagJose jws) w))) in
  exists bc : Stored,
    ipfs_blocks (_ipfs w1) !! c = Some bc
    /\ ipfs_blocks (_ipfs w1) !! l = Some (StoredRaw linkedBlock)
    /\ storeCommit ext (SignedCommitContainer jws linkedBlock) w
       = if (IPFS_MAX_RECORD_SIZE <? stored_size ext (StoredRaw linkedBlock))%N
         then (Throw (oversized_record_error l (stored_size ext (StoredRaw linkedBlock))),
               with_effects w1 (effects w1 ++ [BlockStat l]))
         else if (IPFS_MAX_RECORD_SIZE <? stored_size ext bc)%N
              then (Throw (oversized_record_error c (stored_size ext bc)),
                    with_effects w1 ((effects w1 ++ [BlockStat l]) ++ [BlockStat c]))
              else (Ok (dag_cid ext (DagJose jws)),
                    with_effects w1 ((effects w1 ++ [BlockStat l]) ++ [BlockStat c])).
Proof.
  cbv zeta.
  set (c := cid_toString (dag_cid ext (DagJose jws))).
  set (l := cid_toString (jws_link jws)).
  set (w1 := snd (block_put linkedBlock l (snd (dag_put ext (DagJose jws) w)))).
  assert (Hl : ipfs_blocks (_ipfs w1) !! l = Some (StoredRaw linkedBlock))
    by (subst w1; simpl; apply lookup_insert_eq).
  assert (Hc : exists bc, ipfs_blocks (_ipfs w1) !! c = Some bc).
  { subst w1. simpl. destruct (decide (l = c)) as [E|E].
    - rewrite E, lookup_insert_eq. eexists; reflexivity.
    - rewrite lookup_insert_ne by exact E. fold c. rewrite lookup_insert_eq.
      eexists; reflexivity. }
  destruct Hc as (bc & Hc). exists bc. split; [exact Hc|]. split; [exact Hl|].
  unfold storeCommit. unfold bind at 1. change (dag_put ext (DagJose jws) w)
    with (Ok (dag_cid ext (DagJose jws)), snd (dag_put ext (DagJose jws) w)).
  cbv iota. unfold bind at 1.
  change (block_put linkedBlock (cid_toString (jws_link jws)) (snd (dag_put ext (DagJose jws) w)))
    with (Ok tt, w1).
  cbv iota. unfold bind at 1. fold l.
  rewrite (restrictRecordSize_stored ext l _ w1 Hl).
  destruct (_ <? _)%N; [reflexivity|].
  unfold bind at 1. fold c.
  rewrite (restrictRecordSize_stored ext c bc) by exact Hc.
  destruct (_ <? _)%N; reflexivity.
Qed.

Lemma storeCommit_unsigned (ext : External) (record : string) (w : World) :
  let c := cid_toString (dag_cid ext (DagCbor record)) in
  let w1 := snd (dag_put ext (DagCbor record) w) in
  storeCommit ext (PlainCommit record) w
  = (if (IPFS_MAX_RECORD_SIZE <? dag_encoded_size ext (DagCbor record))%N
     then Throw (oversized_record_error c (dag_encoded_size ext (DagCbor record)))
     else Ok (dag_cid ext (DagCbor record)),
     with_effects w1 (effects w1 ++ [BlockStat c])).
Proof.
  cbv zeta.
  set (c := cid_toString (dag_cid ext (DagCbor record))).
  set (w1 := snd (dag_put ext (DagCbor record) w)).
  assert (Hc : ipfs_blocks (_ipfs w1) !! c = Some (StoredNode (DagCbor record)))
    by (subst w1; simpl; apply lookup_insert_eq).
  unfold storeCommit. unfold bind at 1.
  change (dag_put ext (DagCbor record) w) with (Ok (dag_cid ext (DagCbor record)), w1).
  cbv iota. unfold bind at 1. fold c.
  rewrite (restrictRecordSize_stored ext c _ w1 Hc). simpl stored_size.
  destruct (_ <? _)%N; reflexivity.
Qed.

(** Whether it returns or throws, [storeCommit] leaves the block store
    with all its puts done. *)
Lemma storeCommit_puts (ext : External) (data : CommitData) (w : World) :
  ipfs_blocks (_ipfs (snd (storeCommit ext data w)))
  = commit_puts ext data (ipfs_blocks (_ipfs w)).
Proof.
  destruct data as [jws linkedBlock|record].
  - destruct (storeCommit_signed ext jws linkedBlock w) as (bc & _ & _ & ->).
    repeat destruct (_ <? _)%N; reflexivity.
  - rewrite storeCommit_unsigned. reflexivity.
Qed.

(** C4, as amended.  When one of the records a commit is stored as (for a
    signed-commit container the payload block, and the envelope unless the
    payload is filed under the envelope's own CID; else the one record)
    exceeds 256,000 bytes, [storeCommit] fails with the oversized-record
    error and returns no CID; but the size is read from the block store
    after the puts, so the store holds every record of the commit when the
    error is thrown, and nothing removes them. *)
Theorem oversized_commit_is_rejected_after_put
    (ext : External) (data : CommitData) (w : World) :
  (exists (cid : string) (b : Stored),
      cid ∈ commit_cids ext data
      /\ commit_puts ext data ∅ !! cid = Some b
      /\ (IPFS_MAX_RECORD_SIZE < stored_size ext b)%N) ->
  (exists (cid : string) (size : N),
      cid ∈ commit_cids ext data
      /\ (IPFS_MAX_RECORD_SIZE < size)%N
      /\ fst (storeCommit ext data w) = Throw (oversized_record_error cid size))
  /\ ipfs_blocks (_ipfs (snd (storeCommit ext data w)))
     = commit_puts ext data (ipfs_blocks (_ipfs w))
  /\ (forall cid : string,
        cid ∈ commit_cids ext data ->
        is_Some (ipfs_blocks (_ipfs (snd (storeCommit ext data w))) !! cid)).
Proof.
  intros (cid & b & Hin & Hb & Hbig).
  split; [|split; [apply storeCommit_puts|]].
  2:{ intros cid' Hin'. rewrite storeCommit_puts. apply commit_puts_stored. exact Hin'. }
  rewrite <- (commit_puts_lookup ext data (ipfs_blocks (_ipfs w)) cid Hin) in Hb.
  destruct data as [jws linkedBlock|record].
  - destruct (storeCommit_signed ext jws linkedBlock w) as (bc & Hc & Hl & Hrun).
    set (c := cid_toString (dag_cid ext (DagJose jws))) in *.
    set (l := cid_toString (jws_link jws)) in *.
    set (w1 := snd (block_put linkedBlock l (snd (dag_put ext (DagJose jws) w)))) in *.
    change (commit_puts ext (SignedCommitContainer jws linkedBlock) (ipfs_blocks (_ipfs w)))
      with (ipfs_blocks (_ipfs w1)) in Hb.
    rewrite Hrun.
    destruct (N.ltb_spec IPFS_MAX_RECORD_SIZE (stored_size ext (StoredRaw linkedBlock))) as [H1|H1].
    + exists l, (stored_size ext (StoredRaw linkedBlock)).
      split; [apply list_elem_of_In; simpl; tauto|]. split; [exact H1|reflexivity].
    + destruct (N.ltb_spec IPFS_MAX_RECORD_SIZE (stored_size ext bc)) as [H2|H2].
      * exists c, (stored_size ext bc).
        split; [apply list_elem_of_In; simpl; tauto|]. split; [exact H2|reflexivity].
      * exfalso. apply list_elem_of_In in Hin. simpl in Hin.
        destruct Hin as [<-|[<-|[]]].
        -- fold l in Hb. rewrite Hl in Hb. injection Hb as <-. lia.
        -- fold c in Hb. rewrite Hc in Hb. injection Hb as <-. lia.
  - rewrite storeCommit_unsigned. cbn [fst].
    apply list_elem_of_In in Hin. simpl in Hin. destruct Hin as [<-|[]].
    simpl in Hb. rewrite lookup_insert_eq in Hb. injection Hb as <-. simpl in Hbig.
    exists (cid_toString (dag_cid ext (DagCbor record))), (dag_encoded_size ext (DagCbor record)).
    split; [apply list_elem_of_In; simpl; tauto|]. split; [exact Hbig|].
    destruct (N.ltb_spec IPFS_MAX_RECORD_SIZE (dag_encoded_size ext (DagCbor record)));
      [reflexivity|lia].
Qed.

Lemma oversized_commit_is_rejected_after_put_witness :
  fst (storeCommit Example.ext (PlainCommit "big") Example.fresh)
    = Throw (oversized_record_error "cbor-big" 300000)
  /\ is_Some (ipfs_blocks (_ipfs (snd (storeCommit Example.ext (PlainCommit "big") Example.fresh)))
                !! "cbor-big").
Proof.
  destruct (oversized_commit_is_rejected_after_put Example.ext (PlainCommit "big") Example.fresh)
    as ((cid & size & Hin & Hbig & Hthrow) & Hputs & Hstored).
  - exists "cbor-big", (StoredNode (DagCbor "big")).
    split; [vm_compute; left|]. split; [vm_compute; reflexivity|vm_compute; reflexivity].
  - split; [vm_compute; reflexivity|].
    apply Hstored. vm_compute. left.
Defined.

(** C4 as stated fails: a record of 300,000 bytes makes [storeCommit] fail
    with the oversized-record error, yet the block store, which did not
    hold the record before the call, holds it afterwards. *)
Lemma oversized_commit_is_persisted :
  (IPFS_MAX_RECORD_SIZE < dag_encoded_size Example.ext (DagCbor "big"))%N
  /\ fst (storeCommit Example.ext (PlainCommit "big") Example.fresh)
     = Throw (oversized_record_error "cbor-big" 300000)
  /\ ipfs_blocks (_ipfs Example.fresh) !! "cbor-big" = None
  /\ ~ (ipfs_blocks (_ipfs (snd (storeCommit Example.ext (PlainCommit "big") Example.fresh)))
          !! "cbor-big" = None).
Proof.
  split; [vm_compute; reflexivity|]. split; [vm_compute; reflexivity|].
  split; [vm_compute; reflexivity|].
  vm_compute. discriminate.
Qed.

(** ** Subscribing *)

Lemma consumes_ret {A} (a : A) : consumes (ret a).
Proof. intros w. simpl. lia. Qed.

Lemma consumes_gets {A} (f : World -> A) : consumes (gets f).
Proof. intros w. simpl. lia. Qed.

Lemma consumes_emit (e : Effect) : consumes (emit e).
Proof. intros w. simpl. unfold nfaults. simpl. lia. Qed.

Lemma consumes_bind {A B} (m : M A) (k : A -> M B) :
  consumes m -> (forall a, consumes (k a)) -> consumes (bind m k).
Proof.
  intros Hm Hk w. unfold bind. specialize (Hm w).
  destruct (m w) as [[a|e] w']; [|exact Hm].
  specialize (Hk a w'). destruct (k a w') as [[b|e] w'']; lia.
Qed.

Lemma consumes_pubsub_call (e : Effect) (act : Ipfs -> Ipfs) :
  (forall i, ipfs_faults (act i) = ipfs_faults i) -> consumes (pubsub_call e act).
Proof.
  intros Hact w. unfold pubsub_call. unfold_monad. unfold nfaults. simpl.
  destruct (ipfs_faults (_ipfs w)) as [|[err|] rest] eqn:E; simpl;
    rewrite ?Hact; simpl; rewrite ?E; simpl; lia.
Qed.

Lemma consumes_subscribe_try (force : bool) : consumes (_subscribe_try force).
Proof.
  unfold _subscribe_try, pubsub_ls, pubsub_unsubscribe, pubsub_subscribe.
  apply consumes_bind; [apply consumes_gets|]. intros t.
  apply consumes_bind.
  - destruct force; [apply consumes_ret|].
    apply consumes_bind; [|intros; apply consumes_ret].
    apply consumes_bind; [|intros; apply consumes_gets].
    apply consumes_pubsub_call. reflexivity.
  - intros [|]; [|apply consumes_ret].
    apply consumes_bind; [apply consumes_pubsub_call; reflexivity|]. intros _.
    apply consumes_bind; [apply consumes_pubsub_call; reflexivity|]. intros _.
    apply consumes_emit.
Qed.

(** With more fuel than the outcome script is long, [_subscribe] returns,
    and returns normally. *)
Lemma subscribe_fuel_enough (n : nat) (force : bool) (w : World) :
  (nfaults w < n)%nat -> exists w', _subscribe_fuel n force w = Some (Ok tt, w').
Proof.
  revert force w. induction n as [|n IH]; intros force w Hn; [lia|].
  simpl. pose proof (consumes_subscribe_try force w) as Hc.
  destruct (_subscribe_try force w) as [[[]|error] w'].
  - eexists; reflexivity.
  - destruct (includes _ "Already subscribed"); [eexists; reflexivity|].
    destruct (includes _ "The user aborted a request"); [|eexists; reflexivity].
    apply IH. lia.
Qed.

Lemma subscribe_fuel_stable (n m : nat) (force : bool) (w : World) :
  (nfaults w < n)%nat -> (nfaults w < m)%nat ->
  _subscribe_fuel n force w = _subscribe_fuel m force w.
Proof.
  revert m force w. induction n as [|n IH]; intros [|m] force w Hn Hm; try lia.
  simpl. pose proof (consumes_subscribe_try force w) as Hc.
  destruct (_subscribe_try force w) as [[[]|error] w']; [reflexivity|].
  destruct (includes _ "Already subscribed"); [reflexivity|].
  destruct (includes _ "The user aborted a request"); [|reflexivity].
  apply IH; lia.
Qed.

(** [_subscribe], unrolled once: the [try] block and the three branches of
    the [catch] block. *)
Lemma subscribe_unfold (force : bool) (w : World) :
  _subscribe force w =
  match _subscribe_try force w with
  | (Ok _, w') => (Ok tt, w')
  | (Throw error, w') =>
      if includes (error_message error) "Already subscribed" then
        emit (LoggerDebug (error_message error)) w'
      else if includes (error_message error) "The user aborted a request" then
        _subscribe true w'
      else emit (LoggerErr (error_message error)) w'
  end.
Proof.
  unfold _subscribe at 1. fold (nfaults w). cbn [_subscribe_fuel].
  pose proof (consumes_subscribe_try force w) as Hc.
  destruct (_subscribe_try force w) as [[[]|error] w']; [reflexivity|].
  destruct (includes _ "Already subscribed"); [reflexivity|].
  destruct (includes _ "The user aborted a request"); [|reflexivity].
  unfold _subscribe. fold (nfaults w').
  rewrite (subscribe_fuel_stable (nfaults w) (S (nfaults w')) true w') by lia.
  destruct (subscribe_fuel_enough (S (nfaults w')) true w') as [w'' ->]; [lia|].
  reflexivity.
Qed.

Lemma subscribe_returns (force : bool) (w : World) : fst (_subscribe force w) = Ok tt.
Proof.
  unfold _subscribe. fold (nfaults w).
  destruct (subscribe_fuel_enough (S (nfaults w)) force w) as [w' ->]; [lia|].
  reflexivity.
Qed.

Lemma pubsub_ls_returns (topics : list string) (w w1 : World) :
  pubsub_ls w = (Ok topics, w1) ->
  new_effects w w1 = [PubsubLs]
  /\ ipfs_subscriptions (_ipfs w1) = ipfs_subscriptions (_ipfs w)
  /\ topic w1 = topic w.
Proof.
  unfold pubsub_ls, pubsub_call. unfold_monad. simpl.
  destruct (ipfs_faults (_ipfs w)) as [|[err|] rest]; simpl; intros H;
    inversion H; subst; clear H; simpl;
    (split; [apply new_effects_app; reflexivity|split; reflexivity]).
Qed.

(** C8. [_subscribe] never raises.  When it is not forced and the list
    [pubsub.ls()] returns holds the topic already, nothing but that listing
    is done: no unsubscribe, no subscribe.  When the [try] block throws: an
    error whose message says "Already subscribed" is logged at debug level
    and dropped; otherwise an abort error ("The user aborted a request")
    makes the call continue as exactly one forced invocation
    [_subscribe(true)]; any other error is logged with [logger.err] and the
    call returns normally. *)
Theorem subscribe_absorbs_errors (force : bool) (w : World) :
  fst (_subscribe force w) = Ok tt
  /\ (forall (topics : list string) (w1 : World),
        force = false ->
        pubsub_ls w = (Ok topics, w1) ->
        array_includes topics (topic w) = true ->
        _subscribe force w = (Ok tt, w1)
        /\ new_effects w w1 = [PubsubLs]
        /\ ipfs_subscriptions (_ipfs w1) = ipfs_subscriptions (_ipfs w))
  /\ (forall (error : JsError) (w' : World),
        _subscribe_try force w = (Throw error, w') ->
        (includes (error_message error) "Already subscribed" = true ->
         _subscribe force w
         = (Ok tt, with_effects w' (effects w' ++ [LoggerDebug (error_message error)])))
        /\ (includes (error_message error) "Already subscribed" = false ->
            includes (error_message error) "The user aborted a request" = true ->
            _subscribe force w = _subscribe true w')
        /\ (includes (error_message error) "Already subscribed" = false ->
            includes (error_message error) "The user aborted a request" = false ->
            _subscribe force w
            = (Ok tt, with_effects w' (effects w' ++ [LoggerErr (error_message error)])))).
Proof.
  split; [apply subscribe_returns|]. split.
  - intros topics w1 -> Hls Hin.
    destruct (pubsub_ls_returns topics w w1 Hls) as (He & Hs & Ht).
    split; [|split; assumption].
    rewrite subscribe_unfold. unfold _subscribe_try.
    unfold bind at 1. cbn [gets]. unfold bind at 1. unfold bind at 1.
    rewrite Hls. unfold ret at 1. rewrite Hin. reflexivity.
  - intros error w' Htry. rewrite subscribe_unfold, Htry.
    split; [|split].
    + intros ->. reflexivity.
    + intros -> ->. reflexivity.
    + intros -> ->. reflexivity.
Qed.

Lemma subscribe_absorbs_errors_witness :
  _subscribe false Example.aborting
  = _subscribe true (snd (_subscribe_try false Example.aborting))
  /\ _subscribe false Example.subscribed
     = (Ok tt, with_effects Example.subscribed (effects Example.subscribed ++ [PubsubLs])).
Proof.
  split.
  - destruct (subscribe_absorbs_errors false Example.aborting) as (_ & _ & Hcatch).
    destruct (Hcatch (Error "The user aborted a request.")
                (snd (_subscribe_try false Example.aborting))) as (_ & Habort & _).
    + vm_compute. reflexivity.
    + apply Habort; vm_compute; reflexivity.
  - destruct (subscribe_absorbs_errors false Example.subscribed) as (_ & Hskip & _).
    apply (Hskip ["/ceramic/inmemory"]).
    + reflexivity.
    + vm_compute. reflexivity.
    + vm_compute. reflexivity.
Defined.

(** Each invocation that meets an abort retries once: with two aborted
    attempts in a row the retry is itself retried, three attempts in all. *)
Lemma repeated_abort_retries_again :
  new_effects Example.aborting_twice (snd (_subscribe true Example.aborting_twice))
  = [PubsubUnsubscribe "/ceramic/inmemory" (Some HandleMessage);
     PubsubUnsubscribe "/ceramic/inmemory" (Some HandleMessage);
     PubsubUnsubscribe "/ceramic/inmemory" (Some HandleMessage);
     PubsubSubscribe "/ceramic/inmemory" HandleMessage;
     PubsubLoggerLog "subscribed" "/ceramic/inmemory"].
Proof. vm_compute. reflexivity. Qed.

(** ** After [close()] *)











(** The timer an earlier [init()] armed outlives [close()]: after two
    [init()] and a [close()] the first timer is still live, and when it
    fires the closed dispatcher lists the topics and subscribes again. *)
Lemma timer_of_earlier_init_survives_close :
  _isRunning Example.closed_after_two_inits = false
  /\ _resubscribeInterval Example.closed_after_two_inits = Some 1%nat
  /\ timers Example.closed_after_two_inits = [true; false]
  /\ new_effects Example.closed_after_two_inits
       (snd (resubscribe_tick 0 Example.closed_after_two_inits))
     = [PubsubLs;
        PubsubUnsubscribe "/ceramic/inmemory" (Some HandleMessage);
        PubsubSubscribe "/ceramic/inmemory" HandleMessage;
        PubsubLoggerLog "subscribed" "/ceramic/inmemory"].
Proof.
  split; [vm_compute; reflexivity|]. split; [vm_compute; reflexivity|].
  split; vm_compute; reflexivity.
Qed.



(** ** The Outstanding Query Table *)

Lemma keeps_ret {A} (a : A) : keeps_table (ret a).
Proof. intros w. reflexivity. Qed.

Lemma keeps_gets {A} (f : World -> A) : keeps_table (gets f).
Proof. intros w. reflexivity. Qed.

Lemma keeps_throw {A} (e : JsError) : keeps_table (@throw A e).
Proof. intros w. reflexivity. Qed.

Lemma keeps_emit (e : Effect) : keeps_table (emit e).
Proof. intros w. reflexivity. Qed.

Lemma keeps_liftRes {A} (r : Res A) : keeps_table (liftRes r).
Proof. intros w. reflexivity. Qed.

Lemma keeps_modify (f : World -> World) :
  (forall w, _outstandingQueryIds (f w) = _outstandingQueryIds w) -> keeps_table (modify f).
Proof. intros H w. apply H. Qed.

Lemma keeps_bind {A B} (m : M A) (k : A -> M B) :
  keeps_table m -> (forall a, keeps_table (k a)) -> keeps_table (bind m k).
Proof.
  intros Hm Hk w. unfold bind. specialize (Hm w).
  destruct (m w) as [[a|e] w']; simpl in *; [|exact Hm].
  rewrite Hk. exact Hm.
Qed.

Lemma keeps_pubsub_call (e : Effect) (act : Ipfs -> Ipfs) : keeps_table (pubsub_call e act).
Proof.
  intros w. unfold pubsub_call. unfold_monad. simpl.
  destruct (ipfs_faults (_ipfs w)) as [|[err|] rest]; reflexivity.
Qed.

Ltac keeps :=
  repeat first
    [ apply keeps_ret | apply keeps_gets | apply keeps_throw | apply keeps_emit
    | apply keeps_liftRes
    | apply keeps_pubsub_call
    | apply keeps_modify; intros ?; reflexivity
    | apply keeps_bind; [|intros ?]
    | match goal with
      | |- keeps_table (if ?b then _ else _) => destruct b
      | |- keeps_table (match ?x with _ => _ end) => destruct x
      end ].

Lemma keeps_subscribe_try (force : bool) : keeps_table (_subscribe_try force).
Proof. unfold _subscribe_try, pubsub_ls, pubsub_unsubscribe, pubsub_subscribe. keeps. Qed.

Lemma keeps_subscribe_fuel (n : nat) (force : bool) (w w' : World) (r : Res unit) :
  _subscribe_fuel n force w = Some (r, w') ->
  _outstandingQueryIds w' = _outstandingQueryIds w.
Proof.
  revert force w. induction n as [|n IH]; intros force w; [discriminate|].
  simpl. pose proof (keeps_subscribe_try force w) as Ht.
  destruct (_subscribe_try force w) as [[[]|error] w1]; simpl in Ht.
  - intros H. inversion H; subst. exact Ht.
  - destruct (includes _ "Already subscribed");
      [intros H; inversion H; subst; exact Ht|].
    destruct (includes _ "The user aborted a request");
      [|intros H; inversion H; subst; exact Ht].
    intros H. rewrite (IH _ _ H). exact Ht.
Qed.

Lemma keeps_subscribe (force : bool) : keeps_table (_subscribe force).
Proof.
  intros w. unfold _subscribe.
  destruct (_subscribe_fuel _ force w) as [[r w']|] eqn:E; simpl; [|reflexivity].
  eapply keeps_subscribe_fuel; exact E.
Qed.

Lemma keeps_restrictRecordSize (ext : External) (cid : string) :
  keeps_table (_restrictRecordSize ext cid).
Proof. unfold _restrictRecordSize, block_stat. keeps. Qed.

Lemma keeps_dag_put (ext : External) (n : IpldNode) : keeps_table (dag_put ext n).
Proof. unfold dag_put, store_block. keeps. Qed.

Lemma keeps_dag_get (ext : External) (cid : string) (path : option string) :
  keeps_table (dag_get ext cid path).
Proof. unfold dag_get. keeps. Qed.

Lemma keeps_publish (ext : External) (message : PubsubMessage) : keeps_table (publish ext message).
Proof. unfold publish, pubsub_publish. keeps. Qed.

Lemma keeps_handleResponseMessage (message : ResponseMessage) :
  keeps_table (_handleResponseMessage message).
Proof. unfold _handleResponseMessage, repository_has_value, repository_has. keeps. Qed.

Lemma keeps_handleMessage (ext : External) (message : IncomingMessage) :
  keeps_table (handleMessage ext message).
Proof.
  unfold handleMessage, _handleUpdateMessage, _handleQueryMessage, repository_has,
    repository_get.
  keeps; try apply keeps_handleResponseMessage; try apply keeps_publish.
  destruct p; unfold repository_has_value, repository_has; keeps.
Qed.

Lemma keeps_close : keeps_table close.
Proof. unfold close, clearInterval, repository_close, pubsub_unsubscribe. keeps. Qed.

Lemma keeps_init (ext : External) : keeps_table (init ext).
Proof.
  unfold init, ipfs_id_call, _resubscribe, setInterval. keeps; try apply keeps_subscribe.
Qed.

Lemma register_table (ext : External) (document : Document) (w : World) :
  _outstandingQueryIds (snd (register ext document w))
  = <[qp_id (_buildQueryMessage ext document) := baseID (doc_id document)]>
      (_outstandingQueryIds w).
Proof. reflexivity. Qed.

Lemma step_table (ext : External) (o : Op) (w : World) :
  _outstandingQueryIds (step ext o w) = _outstandingQueryIds w
  \/ exists document : Document,
       o = OpRegister document
       /\ _outstandingQueryIds (step ext o w)
          = <[qp_id (_buildQueryMessage ext document) := baseID (doc_id document)]>
              (_outstandingQueryIds w).
Proof.
  destruct o as [|force|timer|d|id|data|cid|cid path|id tip|m|m|];
    try (left; revert w; fold (keeps_table (exec ext _ ))).
  - left. apply keeps_init.
  - left. apply keeps_subscribe.
  - left. revert w. change (keeps_table (resubscribe_tick timer)).
    unfold resubscribe_tick. keeps; try apply keeps_subscribe.
  - right. exists d. split; [reflexivity|apply register_table].
  - left. revert w. change (keeps_table (unregister id)).
    unfold unregister, repository_delete. keeps.
  - left. revert w. change (keeps_table (discard (storeCommit ext data))).
    unfold discard, storeCommit, block_put, store_block. destruct data;
      keeps; try apply keeps_dag_put; try apply keeps_restrictRecordSize.
  - left. revert w. change (keeps_table (discard (retrieveCommit ext cid))).
    unfold discard, retrieveCommit. keeps;
      try apply keeps_dag_get; try apply keeps_restrictRecordSize.
  - left. revert w. change (keeps_table (discard (retrieveFromIPFS ext cid path))).
    unfold discard, retrieveFromIPFS. keeps; try apply keeps_dag_get.
  - left. apply keeps_publish.
  - left. apply keeps_handleMessage.
  - left. apply keeps_publish.
  - left. apply keeps_close.
Qed.

Lemma step_dom (ext : External) (o : Op) (w : World) :
  dom (_outstandingQueryIds w) ⊆ dom (_outstandingQueryIds (step ext o w)).
Proof.
  destruct (step_table ext o w) as [-> | (d & _ & ->)]; [reflexivity|].
  rewrite dom_insert_L. set_solver.
Qed.

Lemma run_dom (ext : External) (ops : list Op) (w : World) :
  dom (_outstandingQueryIds w) ⊆ dom (_outstandingQueryIds (run ext ops w)).
Proof.
  revert w. induction ops as [|o ops IH]; intros w; simpl; [reflexivity|].
  etrans; [apply (step_dom ext o)|apply IH].
Qed.

(** C10. No operation of the Dispatcher removes an entry from the
    Outstanding Query Table: every operation leaves the table as it is,
    except [register], which inserts; in particular handling a RESPONSE and
    [close()] leave it unchanged.  So over any sequence of operations the
    set of outstanding query ids only grows, and the id filed by a
    [register] is in the table ever after. *)
Theorem outstanding_queries_only_grow (ext : External) :
  (forall (o : Op) (w : World),
      _outstandingQueryIds (step ext o w) = _outstandingQueryIds w
      \/ exists document : Document,
           o = OpRegister document
           /\ _outstandingQueryIds (step ext o w)
              = <[qp_id (_buildQueryMessage ext document) := baseID (doc_id document)]>
                  (_outstandingQueryIds w))
  /\ (forall (message : ResponseMessage) (w : World),
        _outstandingQueryIds (snd (_handleResponseMessage message w)) = _outstandingQueryIds w)
  /\ (forall w : World, _outstandingQueryIds (snd (close w)) = _outstandingQueryIds w)
  /\ (forall (ops : list Op) (w : World),
        dom (_outstandingQueryIds w) ⊆ dom (_outstandingQueryIds (run ext ops w)))
  /\ (forall (document : Document) (ops : list Op) (w : World),
        qp_id (_buildQueryMessage ext document)
        ∈ dom (_outstandingQueryIds (run ext ops (snd (register ext document w))))).
Proof.
  split; [apply step_table|].
  split; [intros m w; apply keeps_handleResponseMessage|].
  split; [apply keeps_close|].
  split; [apply run_dom|].
  intros d ops w. apply (run_dom ext ops). rewrite register_table, dom_insert_L. set_solver.
Qed.

(** ** Unknown message types *)

(** C9. A message that reaches deserialization (the dispatcher is running
    and the message is not the local peer's own) and deserializes to a
    [typ] outside QUERY, RESPONSE, UPDATE makes [handleMessage] throw the
    unreachable-case error; nothing is dispatched or changed. *)
Theorem unknown_message_type_fails_fast
    (ext : External) (message : IncomingMessage) (typ : Z) (w : World) :
  _isRunning w = true ->
  _peerId w <> Some (msg_from message) ->
  deserialize ext (msg_data message) = Ok (UnknownTyp typ) ->
  handleMessage ext message w = (Throw (UnreachableCaseError "Unknown message type"), w).
Proof.
  intros Hrun Hfrom Hparse. unfold handleMessage. unfold_monad.
  rewrite Hrun. simpl.
  rewrite bool_decide_eq_false_2 by congruence.
  rewrite Hparse. reflexivity.
Qed.

Lemma unknown_message_type_fails_fast_witness :
  handleMessage Example.ext {| msg_from := "peer-2"; msg_data := "{typ:7}" |} Example.fresh
  = (Throw (UnreachableCaseError "Unknown message type"), Example.fresh).
Proof.
  apply (unknown_message_type_fails_fast Example.ext _ 7 Example.fresh).
  - reflexivity.
  - discriminate.
  - reflexivity.
Defined.

End DispatcherFacts.

(* ===================================================================== *)
(** * Further properties of the Dispatcher                               *)
(* ===================================================================== *)

Module DispatcherExtra.

Import Dispatcher DispatcherAux.
Open Scope string_scope.
Open Scope list_scope.

Ltac unfold_monad :=
  unfold discard, emit, modify, bind, ret, gets, throw, liftRes in *.

(** ** Bookkeeping *)

Lemma with_effects_same (w : World) : with_effects w (effects w) = w.
Proof. destruct w; reflexivity. Qed.

Lemma appends_refl (w : World) : appends w w.
Proof. exists []. rewrite app_nil_r. symmetry. apply with_effects_same. Qed.

Lemma appends_more (w : World) (l : list Effect) : appends w (with_effects w (effects w ++ l)).
Proof. exists l. reflexivity. Qed.

Lemma appends_trans (w1 w2 w3 : World) : appends w1 w2 -> appends w2 w3 -> appends w1 w3.
Proof.
  intros [l1 ->] [l2 ->]. exists (l1 ++ l2). simpl. rewrite app_assoc. reflexivity.
Qed.

Lemma appends_new_effects (w w' : World) (l : list Effect) :
  w' = with_effects w (effects w ++ l) -> new_effects w w' = l.
Proof. intros ->. unfold new_effects. simpl. apply drop_app_length. Qed.

(** ** What each handler does, case by case *)

Lemma handleMessage_cases (ext : External) (message : IncomingMessage) (w : World) :
  handleMessage ext message w =
  if negb (_isRunning w) then (Ok tt, log_closed w)
  else if bool_decide (Some (msg_from message) = _peerId w) then (Ok tt, w)
  else match deserialize ext (msg_data message) with
       | Throw e => (Throw e, w)
       | Ok (Known (MsgQuery m)) => _handleQueryMessage ext m w
       | Ok (Known (MsgResponse m)) => _handleResponseMessage m w
       | Ok (Known (MsgUpdate m)) => _handleUpdateMessage m w
       | Ok (UnknownTyp _) => (Throw (UnreachableCaseError "Unknown message type"), w)
       end.
Proof.
  unfold handleMessage. unfold bind at 1. cbn [gets].
  destruct (_isRunning w); cbn [negb]; [|reflexivity].
  unfold bind at 1. cbn [gets].
  destruct (bool_decide _); [reflexivity|].
  unfold bind at 1, liftRes.
  destruct (deserialize ext (msg_data message)) as [[[m|m|m]|typ]|e]; reflexivity.
Qed.

Lemma handleUpdateMessage_cases (message : UpdateMessage) (w : World) :
  _handleUpdateMessage message w =
  match repository w !! repository_key (u_doc message) with
  | Some _ =>
      (Ok tt, with_effects w
                (effects w ++ [DocumentEmitUpdate (repository_key (u_doc message))
                                 (u_tip message)]))
  | None => (Ok tt, w)
  end.
Proof.
  unfold _handleUpdateMessage, repository_has. unfold_monad.
  destruct (repository w !! repository_key (u_doc message)) eqn:E.
  - rewrite bool_decide_eq_true_2 by (eexists; reflexivity). reflexivity.
  - rewrite bool_decide_eq_false_2 by (intros [? ?]; discriminate). reflexivity.
Qed.

Lemma publish_when_running (ext : External) (message : PubsubMessage) (w : World) :
  _isRunning w = true ->
  publish ext message w
  = (Ok tt, with_effects w (effects w ++ [PubsubPublish (topic w) (serialize ext message);
                                          PubsubLoggerLog "published" (topic w)])).
Proof.
  intros H. unfold publish, pubsub_publish. unfold_monad. rewrite H. simpl.
  rewrite <- app_assoc. reflexivity.
Qed.

Lemma handleQueryMessage_cases (ext : External) (message : QueryMessage) (w : World) :
  _isRunning w = true ->
  _handleQueryMessage ext message w =
  match repository w !! repository_key (q_doc message) with
  | Some doc =>
      (Ok tt, with_effects w
                (effects w ++
                 [PubsubPublish (topic w)
                    (serialize ext
                       (MsgResponse {| r_id := q_id message;
                                       r_tips := {[ docid_toString (q_doc message)
                                                    := doc_tip doc ]} |}));
                  PubsubLoggerLog "published" (topic w)]))
  | None => (Ok tt, w)
  end.
Proof.
  intros H. unfold _handleQueryMessage, repository_get. unfold bind at 1. cbn [gets].
  destruct (repository w !! repository_key (q_doc message)) as [doc|]; [|reflexivity].
  apply publish_when_running. exact H.
Qed.

Lemma handleResponseMessage_outcome (message : ResponseMessage) (w : World) :
  snd (_handleResponseMessage message w) = w
  \/ exists (doc : string) (tip : CID),
       snd (_handleResponseMessage message w)
       = with_effects w (effects w ++ [DocumentEmitUpdate doc tip]).
Proof.
  rewrite DispatcherFacts.handleResponseMessage_cases.
  destruct (object_get _ _) as [[d|name]|]; [| |left; reflexivity].
  - destruct (r_tips message !! _) as [tip|]; [|left; reflexivity].
    destruct (bool_decide _); [right; eexists; eexists; reflexivity|left; reflexivity].
  - destruct (r_tips message !! _); left; reflexivity.
Qed.

(** The trace an inbound message can leave: nothing, the "closed" log
    line, one ['update'] event, or one published RESPONSE with its log
    line, the last only for a QUERY. *)
Lemma handleMessage_outcome (ext : External) (message : IncomingMessage) (w : World) :
  exists l : list Effect,
    snd (handleMessage ext message w) = with_effects w (effects w ++ l)
    /\ (l = []
        \/ l = [LoggerErr "Dispatcher has been closed"]
        \/ (exists (doc : string) (tip : CID), l = [DocumentEmitUpdate doc tip])
        \/ (exists (q : QueryMessage) (data : string),
               deserialize ext (msg_data message) = Ok (Known (MsgQuery q))
               /\ l = [PubsubPublish (topic w) data; PubsubLoggerLog "published" (topic w)])).
Proof.
  assert (Hnil : snd (Ok tt, w) = with_effects w (effects w ++ []))
    by (simpl; rewrite app_nil_r, with_effects_same; reflexivity).
  rewrite handleMessage_cases.
  destruct (_isRunning w) eqn:Hrun; cbn [negb].
  2:{ eexists. split; [reflexivity|]. right; left; reflexivity. }
  destruct (bool_decide _).
  { exists []. split; [exact Hnil|]. left; reflexivity. }
  destruct (deserialize ext (msg_data message)) as [[[m|m|m]|typ]|e] eqn:Hparse.
  - rewrite handleUpdateMessage_cases.
    destruct (repository w !! _).
    + eexists. split; [reflexivity|]. right; right; left. eexists; eexists; reflexivity.
    + exists []. split; [exact Hnil|]. left; reflexivity.
  - rewrite (handleQueryMessage_cases ext m w Hrun).
    destruct (repository w !! _).
    + eexists. split; [reflexivity|]. right; right; right.
      exists m. eexists. split; reflexivity.
    + exists []. split; [exact Hnil|]. left; reflexivity.
  - destruct (handleResponseMessage_outcome m w) as [E|(doc & tip & E)]; rewrite E.
    + exists []. split; [exact Hnil|]. left; reflexivity.
    + eexists. split; [reflexivity|]. right; right; left. eexists; eexists; reflexivity.
  - exists []. split; [exact Hnil|]. left; reflexivity.
  - exists []. split; [exact Hnil|]. left; reflexivity.
Qed.

(** ** Inbound messages never change what the dispatcher holds *)

(** X5. Handling an inbound message, whatever it is and whether it returns
    or throws, changes nothing the dispatcher or the node holds (peer id,
    query table, running flag, timer, repository, block store,
    subscriptions): it only appends to the trace. *)
Theorem handleMessage_only_appends
    (ext : External) (message : IncomingMessage) (w : World) :
  appends w (snd (handleMessage ext message w))
  /\ same_state (snd (handleMessage ext message w)) w.
Proof.
  destruct (handleMessage_outcome ext message w) as (l & E & _).
  rewrite E. split; [apply appends_more|].
  unfold same_state. simpl. repeat split; reflexivity.
Qed.

(** X8. An inbound message never makes the dispatcher publish more than
    one message, and it publishes none unless the message deserializes to
    a QUERY: a RESPONSE, an UPDATE, an unknown or an unreadable message is
    never answered on the topic. *)
Theorem handleMessage_publishes_at_most_once
    (ext : External) (message : IncomingMessage) (w : World) :
  (length (filter (fun e => is_publish e = true)
             (new_effects w (snd (handleMessage ext message w)))) <= 1)%nat
  /\ match deserialize ext (msg_data message) with
     | Ok (Known (MsgQuery _)) => True
     | _ => Forall (fun e => is_publish e = false)
              (new_effects w (snd (handleMessage ext message w)))
     end.
Proof.
  destruct (handleMessage_outcome ext message w) as (l & E & Hl).
  rewrite (appends_new_effects _ _ _ E). clear E.
  destruct Hl as [->|[->|[(doc & tip & ->)|(q & data & Hq & ->)]]].
  - split; [simpl; lia|]. destruct (deserialize _ _) as [[[]|]|]; constructor.
  - split; [simpl; lia|].
    destruct (deserialize _ _) as [[[]|]|]; try exact I; repeat constructor.
  - split; [simpl; lia|].
    destruct (deserialize _ _) as [[[]|]|]; try exact I; repeat constructor.
  - rewrite Hq. split; [|exact I].
    rewrite filter_cons_True by reflexivity.
    rewrite filter_cons_False by discriminate. simpl. lia.
Qed.

(** ** Storing and retrieving commits *)

Lemma retrieveFromIPFS_stored
    (ext : External) (cid : string) (path : option string) (b : Stored) (w : World) :
  ipfs_blocks (_ipfs w) !! cid = Some b ->
  retrieveFromIPFS ext cid path w
  = (Ok (dag_resolve ext b path), with_effects w (effects w ++ [DagGet cid path])).
Proof.
  intros Hb. unfold retrieveFromIPFS, dag_get. unfold_monad. simpl. rewrite Hb. reflexivity.
Qed.

Lemma retrieveCommit_stored (ext : External) (cid : string) (b : Stored) (w : World) :
  ipfs_blocks (_ipfs w) !! cid = Some b ->
  retrieveCommit ext cid w
  = (if (IPFS_MAX_RECORD_SIZE <? stored_size ext b)%N
     then Throw (oversized_record_error cid (stored_size ext b))
     else Ok (dag_resolve ext b None),
     with_effects w (effects w ++ [DagGet cid None; BlockStat cid])).
Proof.
  intros Hb. unfold retrieveCommit, dag_get, _restrictRecordSize, block_stat.
  unfold_monad. simpl. rewrite Hb. simpl. rewrite Hb.
  destruct (_ <? _)%N; simpl; rewrite <- app_assoc; reflexivity.
Qed.

Lemma storeCommit_plain (ext : External) (record : string) (w : World) :
  let cid := dag_cid ext (DagCbor record) in
  let w1 := snd (dag_put ext (DagCbor record) w) in
  storeCommit ext (PlainCommit record) w
  = (if (IPFS_MAX_RECORD_SIZE <? dag_encoded_size ext (DagCbor record))%N
     then Throw (oversized_record_error (cid_toString cid)
                   (dag_encoded_size ext (DagCbor record)))
     else Ok cid,
     with_effects w1 (effects w1 ++ [BlockStat (cid_toString cid)])).
Proof.
  cbv zeta. unfold storeCommit, dag_put, store_block, _restrictRecordSize, block_stat.
  unfold_monad. simpl. rewrite lookup_insert_eq. simpl.
  destruct (_ <? _)%N; reflexivity.
Qed.

Lemma storeCommit_signed_ok
    (ext : External) (jws : JWS) (linkedBlock : list Byte.byte) (w : World) (cid : CID) :
  fst (storeCommit ext (SignedCommitContainer jws linkedBlock) w) = Ok cid ->
  let c := cid_toString (dag_cid ext (DagJose jws)) in
  let l := cid_toString (jws_link jws) in
  cid = dag_cid ext (DagJose jws)
  /\ (stored_size ext (StoredRaw linkedBlock) <= IPFS_MAX_RECORD_SIZE)%N
  /\ ipfs_blocks (_ipfs (snd (storeCommit ext (SignedCommitContainer jws linkedBlock) w)))
     = <[l := StoredRaw linkedBlock]> (<[c := StoredNode (DagJose jws)]> (ipfs_blocks (_ipfs w)))
  /\ (c <> l -> (stored_size ext (StoredNode (DagJose jws)) <= IPFS_MAX_RECORD_SIZE)%N).
Proof.
  cbv zeta. unfold storeCommit, dag_put, block_put, store_block, _restrictRecordSize, block_stat.
  unfold_monad. simpl. rewrite lookup_insert_eq. simpl.
  destruct (N.ltb_spec IPFS_MAX_RECORD_SIZE (N.of_nat (length linkedBlock))) as [H1|H1];
    simpl; [discriminate|].
  destruct (decide (cid_toString (jws_link jws) = cid_toString (dag_cid ext (DagJose jws))))
    as [E|E].
  - rewrite E, lookup_insert_eq. simpl.
    destruct (N.ltb_spec IPFS_MAX_RECORD_SIZE (N.of_nat (length linkedBlock))) as [H2|H2];
      simpl; [discriminate|].
    intros H. injection H as <-.
    split; [reflexivity|]. split; [exact H1|]. split; [reflexivity|]. congruence.
  - rewrite lookup_insert_ne by exact E. rewrite lookup_insert_eq. simpl.
    destruct (N.ltb_spec IPFS_MAX_RECORD_SIZE (dag_encoded_size ext (DagJose jws))) as [H2|H2];
      simpl; [discriminate|].
    intros H. injection H as <-.
    split; [reflexivity|]. split; [exact H1|]. split; [reflexivity|]. intros _; exact H2.
Qed.

(** X1. A commit [storeCommit] accepted can be read back: under the CID it
    returned the block store holds a record of at most 256,000 bytes, and
    [retrieveCommit] of that CID returns it (through [dag.get]) without
    tripping the size check.  For a signed-commit container the returned
    CID is the envelope's, the payload is read back under the envelope's
    link, and the envelope itself unless the link names the same CID. *)
Theorem stored_commit_is_retrievable
    (ext : External) (data : CommitData) (w : World) (cid : CID) :
  fst (storeCommit ext data w) = Ok cid ->
  exists b : Stored,
    ipfs_blocks (_ipfs (snd (storeCommit ext data w))) !! cid_toString cid = Some b
    /\ (stored_size ext b <= IPFS_MAX_RECORD_SIZE)%N
    /\ fst (retrieveCommit ext (cid_toString cid) (snd (storeCommit ext data w)))
       = Ok (dag_resolve ext b None)
    /\ match data with
       | PlainCommit record =>
           cid = dag_cid ext (DagCbor record) /\ b = StoredNode (DagCbor record)
       | SignedCommitContainer jws linkedBlock =>
           cid = dag_cid ext (DagJose jws)
           /\ (cid_toString cid <> cid_toString (jws_link jws) -> b = StoredNode (DagJose jws))
           /\ fst (retrieveCommit ext (cid_toString (jws_link jws))
                     (snd (storeCommit ext data w)))
              = Ok (dag_resolve ext (StoredRaw linkedBlock) None)
       end.
Proof.
  destruct data as [jws linkedBlock|record].
  - intros Hok.
    destruct (storeCommit_signed_ok ext jws linkedBlock w cid Hok) as (-> & Hl & Hblocks & Hc).
    set (w' := snd (storeCommit ext (SignedCommitContainer jws linkedBlock) w)) in *.
    assert (Hlink : ipfs_blocks (_ipfs w') !! cid_toString (jws_link jws)
                    = Some (StoredRaw linkedBlock))
      by (rewrite Hblocks; apply lookup_insert_eq).
    assert (Hread : forall (c : string) (b : Stored),
               ipfs_blocks (_ipfs w') !! c = Some b ->
               (stored_size ext b <= IPFS_MAX_RECORD_SIZE)%N ->
               fst (retrieveCommit ext c w') = Ok (dag_resolve ext b None)).
    { intros c b Hb Hsize. rewrite (retrieveCommit_stored ext c b w' Hb). simpl.
      destruct (N.ltb_spec IPFS_MAX_RECORD_SIZE (stored_size ext b)); [lia|reflexivity]. }
    destruct (decide (cid_toString (dag_cid ext (DagJose jws)) = cid_toString (jws_link jws)))
      as [E|E].
    + exists (StoredRaw linkedBlock). rewrite E.
      split; [exact Hlink|]. split; [exact Hl|].
      split; [apply Hread; assumption|].
      split; [reflexivity|]. split; [congruence|apply Hread; assumption].
    + exists (StoredNode (DagJose jws)).
      assert (Hb : ipfs_blocks (_ipfs w') !! cid_toString (dag_cid ext (DagJose jws))
                   = Some (StoredNode (DagJose jws))).
      { rewrite Hblocks. rewrite lookup_insert_ne by congruence. apply lookup_insert_eq. }
      split; [exact Hb|]. split; [apply Hc; exact E|].
      split; [apply Hread; [exact Hb|apply Hc; exact E]|].
      split; [reflexivity|]. split; [reflexivity|apply Hread; assumption].
  - intros Hok. pose proof (storeCommit_plain ext record w) as Hrun. cbv zeta in Hrun.
    rewrite Hrun in *. cbn [fst snd] in *.
    destruct (N.ltb_spec IPFS_MAX_RECORD_SIZE (dag_encoded_size ext (DagCbor record)))
      as [H|H]; [discriminate|].
    injection Hok as <-.
    exists (StoredNode (DagCbor record)).
    assert (Hb : ipfs_blocks (_ipfs (snd (dag_put ext (DagCbor record) w)))
                 !! cid_toString (dag_cid ext (DagCbor record))
                 = Some (StoredNode (DagCbor record)))
      by (simpl; apply lookup_insert_eq).
    split; [exact Hb|]. split; [exact H|].
    split; [|split; reflexivity].
    erewrite retrieveCommit_stored by exact Hb. simpl.
    destruct (N.ltb_spec IPFS_MAX_RECORD_SIZE (dag_encoded_size ext (DagCbor record)));
      [lia|reflexivity].
Qed.

Lemma stored_commit_is_retrievable_witness :
  fst (retrieveCommit Dispatcher.Example.ext "cbor-small"
         (snd (storeCommit Dispatcher.Example.ext (PlainCommit "small")
                 Dispatcher.Example.fresh)))
  = Ok (StoredNode (DagCbor "small")).
Proof.
  destruct (stored_commit_is_retrievable Dispatcher.Example.ext (PlainCommit "small")
              Dispatcher.Example.fresh (mkCID "cbor-small"))
    as (b & _ & _ & Hread & _ & ->).
  - vm_compute. reflexivity.
  - exact Hread.
Defined.

(** X2. [retrieveCommit] enforces the record size on reading and
    [retrieveFromIPFS] does not: for a block the store holds,
    [retrieveFromIPFS] always returns it; [retrieveCommit] returns the same
    value when the block has at most 256,000 bytes (the limit itself
    passes) and otherwise throws the oversized-record error, after the
    record was fetched. *)
Theorem retrieveCommit_checks_size_on_read
    (ext : External) (cid : string) (b : Stored) (w : World) :
  ipfs_blocks (_ipfs w) !! cid = Some b ->
  fst (retrieveFromIPFS ext cid None w) = Ok (dag_resolve ext b None)
  /\ ((stored_size ext b <= IPFS_MAX_RECORD_SIZE)%N ->
      fst (retrieveCommit ext cid w) = fst (retrieveFromIPFS ext cid None w))
  /\ ((IPFS_MAX_RECORD_SIZE < stored_size ext b)%N ->
      fst (retrieveCommit ext cid w) = Throw (oversized_record_error cid (stored_size ext b)))
  /\ new_effects w (snd (retrieveCommit ext cid w)) = [DagGet cid None; BlockStat cid].
Proof.
  intros Hb.
  rewrite (retrieveFromIPFS_stored ext cid None b w Hb).
  rewrite (retrieveCommit_stored ext cid b w Hb). cbn [fst snd].
  split; [reflexivity|]. split; [|split].
  - intros H. destruct (N.ltb_spec IPFS_MAX_RECORD_SIZE (stored_size ext b)); [lia|reflexivity].
  - intros H. destruct (N.ltb_spec IPFS_MAX_RECORD_SIZE (stored_size ext b)); [reflexivity|lia].
  - apply appends_new_effects. reflexivity.
Qed.

Lemma retrieveCommit_checks_size_on_read_witness :
  fst (retrieveCommit Example.sized_ext "cbor-limit" Example.stocked)
    = Ok (StoredNode (DagCbor "limit"))
  /\ fst (retrieveCommit Example.sized_ext "cbor-over" Example.stocked)
     = Throw (oversized_record_error "cbor-over" 256001)
  /\ fst (retrieveFromIPFS Example.sized_ext "cbor-over" None Example.stocked)
     = Ok (StoredNode (DagCbor "over")).
Proof.
  destruct (retrieveCommit_checks_size_on_read Example.sized_ext "cbor-limit"
              (StoredNode (DagCbor "limit")) Example.stocked) as (Hget & Hle & _ & _);
    [vm_compute; reflexivity|].
  destruct (retrieveCommit_checks_size_on_read Example.sized_ext "cbor-over"
              (StoredNode (DagCbor "over")) Example.stocked) as (Hget' & _ & Hgt & _);
    [vm_compute; reflexivity|].
  split; [|split].
  - rewrite Hle; [exact Hget|vm_compute; discriminate].
  - apply Hgt. vm_compute. reflexivity.
  - exact Hget'.
Defined.

(** ** Gossip between two dispatchers *)

(** X3. A tip one dispatcher announces reaches the document of another:
    [publishTip] on a running dispatcher publishes one UPDATE for the base
    id of the document (a commit id is stripped); a running peer that
    tracks the document, reads the message back as it was serialized and
    is not its author hands exactly that tip to the document, once. *)
Theorem update_gossip_delivers_tip
    (ext : External) (sender receiver : World) (docId : DocID) (tip : CID) (from : string) :
  _isRunning sender = true ->
  _isRunning receiver = true ->
  _peerId receiver <> Some from ->
  deserialize ext (serialize ext (update_message docId tip))
    = Ok (Known (update_message docId tip)) ->
  is_Some (repository receiver !! repository_key docId) ->
  new_effects sender (snd (publishTip ext docId tip sender))
    = [PubsubPublish (topic sender) (serialize ext (update_message docId tip));
       PubsubLoggerLog "published" (topic sender)]
  /\ handleMessage ext
       {| msg_from := from; msg_data := serialize ext (update_message docId tip) |} receiver
     = (Ok tt, with_effects receiver
                 (effects receiver ++ [DocumentEmitUpdate (repository_key docId) tip])).
Proof.
  intros Hs Hr Hfrom Hcodec [doc Hdoc]. split.
  - unfold publishTip. fold (update_message docId tip).
    rewrite (publish_when_running ext _ sender Hs). cbn [snd].
    apply appends_new_effects. reflexivity.
  - rewrite handleMessage_cases, Hr. cbn [negb msg_from msg_data].
    rewrite bool_decide_eq_false_2 by congruence.
    rewrite Hcodec. unfold update_message. rewrite handleUpdateMessage_cases.
    cbn [u_doc u_tip]. change (repository_key (baseID docId)) with (repository_key docId).
    rewrite Hdoc. reflexivity.
Qed.

Lemma update_gossip_delivers_tip_witness :
  handleMessage Example.ext
    {| msg_from := "peer-1";
       msg_data := serialize Example.ext
                     (update_message (doc_id Example.docD) (mkCID "tip9")) |}
    Example.peer2
  = (Ok tt, with_effects Example.peer2
              (effects Example.peer2
               ++ [DocumentEmitUpdate (repository_key (doc_id Example.docD)) (mkCID "tip9")])).
Proof.
  apply (update_gossip_delivers_tip Example.ext Example.peer1 Example.peer2
           (doc_id Example.docD) (mkCID "tip9") "peer-1").
  - vm_compute. reflexivity.
  - vm_compute. reflexivity.
  - vm_compute. discriminate.
  - vm_compute. reflexivity.
  - vm_compute. eexists. reflexivity.
Defined.

(** X4. The QUERY [register] sends is answered by a peer that tracks the
    document, and the answer reaches the registered document: the peer,
    reading the published QUERY, publishes one RESPONSE with the query's id
    and its own tip filed under the document's base id; the registering
    dispatcher, reading that RESPONSE, finds the outstanding query and the
    tip under the key it expects and hands the tip to the document, once. *)
Theorem query_is_answered_and_delivered
    (ext : External) (asker peer : World) (document doc : Document)
    (asker_id peer_id : string) :
  _isRunning asker = true ->
  _isRunning peer = true ->
  _peerId peer <> Some asker_id ->
  _peerId asker <> Some peer_id ->
  repository peer !! repository_key (doc_id document) = Some doc ->
  deserialize ext (JSON_stringify ext (_buildQueryMessage ext document))
    = Ok (Known (MsgQuery (query_of ext document))) ->
  deserialize ext (serialize ext (MsgResponse (response_to ext document doc)))
    = Ok (Known (MsgResponse (response_to ext document doc))) ->
  new_effects asker (snd (register ext document asker))
    = [PubsubPublish (topic asker) (JSON_stringify ext (_buildQueryMessage ext document));
       PubsubLoggerLog "published" (topic asker)]
  /\ handleMessage ext
       {| msg_from := asker_id;
          msg_data := JSON_stringify ext (_buildQueryMessage ext document) |} peer
     = (Ok tt, with_effects peer
                 (effects peer
                  ++ [PubsubPublish (topic peer)
                        (serialize ext (MsgResponse (response_to ext document doc)));
                      PubsubLoggerLog "published" (topic peer)]))
  /\ new_effects (snd (register ext document asker))
       (snd (handleMessage ext
               {| msg_from := peer_id;
                  msg_data := serialize ext (MsgResponse (response_to ext document doc)) |}
               (snd (register ext document asker))))
     = [DocumentEmitUpdate (repository_key (doc_id document)) (doc_tip doc)].
Proof.
  intros Ha Hp Hpfrom Hafrom Hdoc Hq Hr.
  set (a1 := snd (register ext document asker)).
  assert (Ea1 : a1 = with_effects
                       (with_outstandingQueryIds
                          (with_repository asker
                             (<[repository_key (doc_id document) := document]>
                                (repository asker)))
                          (<[qp_id (_buildQueryMessage ext document)
                             := baseID (doc_id document)]> (_outstandingQueryIds asker)))
                       (effects asker
                        ++ [PubsubPublish (topic asker)
                              (JSON_stringify ext (_buildQueryMessage ext document));
                            PubsubLoggerLog "published" (topic asker)])).
  { subst a1. unfold register, repository_add, pubsub_publish. unfold_monad. simpl.
    rewrite <- app_assoc. reflexivity. }
  split; [|split].
  - unfold new_effects. rewrite Ea1. simpl. apply drop_app_length.
  - rewrite handleMessage_cases, Hp. cbn [negb msg_from msg_data].
    rewrite bool_decide_eq_false_2 by congruence.
    rewrite Hq. rewrite (handleQueryMessage_cases ext _ peer Hp).
    unfold query_of. cbn [q_doc q_id].
    change (repository_key (baseID (doc_id document)))
      with (repository_key (doc_id document)).
    rewrite Hdoc. reflexivity.
  - rewrite handleMessage_cases.
    assert (Hrun1 : _isRunning a1 = true) by (rewrite Ea1; exact Ha).
    assert (Hpeer1 : _peerId a1 = _peerId asker) by (rewrite Ea1; reflexivity).
    rewrite Hrun1. cbn [negb msg_from msg_data].
    rewrite bool_decide_eq_false_2 by congruence.
    rewrite Hr.
    assert (Ht : _outstandingQueryIds a1 !! qp_id (_buildQueryMessage ext document)
                 = Some (baseID (doc_id document)))
      by (rewrite Ea1; simpl; apply lookup_insert_eq).
    rewrite (DispatcherFacts.handleResponseMessage_filed
               (response_to ext document doc) (baseID (doc_id document)) a1 Ht).
    unfold response_to. cbn [r_id r_tips].
    rewrite lookup_singleton_eq.
    assert (Hrepo : repository a1 !! repository_key (baseID (doc_id document))
                    = Some document)
      by (rewrite Ea1; simpl; apply lookup_insert_eq).
    rewrite bool_decide_eq_true_2 by (rewrite Hrepo; eexists; reflexivity).
    cbn [snd]. apply appends_new_effects. reflexivity.
Qed.

Lemma query_is_answered_and_delivered_witness :
  new_effects (snd (register Example.ext Example.docD Example.peer1))
    (snd (handleMessage Example.ext
            {| msg_from := "peer-2";
               msg_data := serialize Example.ext
                             (MsgResponse (response_to Example.ext Example.docD
                                             Example.docD_remote)) |}
            (snd (register Example.ext Example.docD Example.peer1))))
  = [DocumentEmitUpdate (repository_key (doc_id Example.docD)) (mkCID "tip9")].
Proof.
  apply (query_is_answered_and_delivered Example.ext Example.peer1 Example.peer2
           Example.docD Example.docD_remote "peer-1" "peer-2").
  - vm_compute. reflexivity.
  - vm_compute. reflexivity.
  - vm_compute. discriminate.
  - vm_compute. discriminate.
  - vm_compute. reflexivity.
  - vm_compute. reflexivity.
  - vm_compute. reflexivity.
Defined.

(** ** Frames: what an action leaves alone *)

Section Frames.

Variable R : World -> World -> Prop.
Hypothesis R_refl : forall w, R w w.
Hypothesis R_trans : forall w1 w2 w3, R w1 w2 -> R w2 w3 -> R w1 w3.

Lemma frames_ret {A} (a : A) : frames R (ret a).
Proof using R_refl. intros w. apply R_refl. Qed.

Lemma frames_gets {A} (f : World -> A) : frames R (gets f).
Proof using R_refl. intros w. apply R_refl. Qed.

Lemma frames_throw {A} (e : JsError) : frames R (@throw A e).
Proof using R_refl. intros w. apply R_refl. Qed.

Lemma frames_liftRes {A} (r : Res A) : frames R (liftRes r).
Proof using R_refl. intros w. apply R_refl. Qed.

Lemma frames_modify (f : World -> World) : (forall w, R w (f w)) -> frames R (modify f).
Proof using Type. intros H w. apply H. Qed.

Lemma frames_bind {A B} (m : M A) (k : A -> M B) :
  frames R m -> (forall a, frames R (k a)) -> frames R (bind m k).
Proof using R_trans.
  intros Hm Hk w. unfold bind. specialize (Hm w).
  destruct (m w) as [[a|e] w']; simpl in *; [|exact Hm].
  eapply R_trans; [exact Hm|apply Hk].
Qed.

(** [_subscribe] keeps what its [try] block and a log line keep. *)
Lemma frames_subscribe :
  (forall force, frames R (_subscribe_try force)) ->
  (forall e, frames R (emit e)) ->
  forall force, frames R (_subscribe force).
Proof using R_refl R_trans.
  intros Htry Hemit.
  assert (Hfuel : forall n force w r w',
             _subscribe_fuel n force w = Some (r, w') -> R w w').
  { induction n as [|n IH]; intros force w r w'; [discriminate|].
    simpl. pose proof (Htry force w) as Ht.
    destruct (_subscribe_try force w) as [[[]|error] w1]; simpl in Ht.
    - intros H. inversion H; subst. exact Ht.
    - destruct (includes _ "Already subscribed").
      { intros H. inversion H; subst. eapply R_trans; [exact Ht|apply (Hemit _ w1)]. }
      destruct (includes _ "The user aborted a request").
      { intros H. eapply R_trans; [exact Ht|eapply IH; exact H]. }
      intros H. inversion H; subst. eapply R_trans; [exact Ht|apply (Hemit _ w1)]. }
  intros force w. unfold _subscribe.
  destruct (_subscribe_fuel _ force w) as [[r w']|] eqn:E; simpl; [|apply R_refl].
  eapply Hfuel; exact E.
Qed.

End Frames.

Ltac frames_step :=
  first
    [ apply frames_ret; assumption
    | apply frames_gets; assumption
    | apply frames_throw; assumption
    | apply frames_liftRes; assumption
    | apply frames_bind; [assumption| |intros ?]
    | match goal with
      | |- frames _ (if ?b then _ else _) => destruct b
      | |- frames _ (match ?x with _ => _ end) => destruct x
      end ].

(** *** The pub/sub transport touches subscriptions, script and trace only *)

Lemma transport_only_refl (w : World) : transport_only w w.
Proof. unfold transport_only. repeat split; reflexivity. Qed.

Lemma transport_only_trans (w1 w2 w3 : World) :
  transport_only w1 w2 -> transport_only w2 w3 -> transport_only w1 w3.
Proof.
  unfold transport_only.
  intros (a1 & a2 & a3 & a4 & a5 & a6 & a7 & a8 & a9 & a10)
         (b1 & b2 & b3 & b4 & b5 & b6 & b7 & b8 & b9 & b10).
  repeat split; congruence.
Qed.

Lemma transport_only_emit (e : Effect) : frames transport_only (emit e).
Proof. intros w. unfold transport_only. simpl. repeat split; reflexivity. Qed.

Lemma transport_only_pubsub_call (e : Effect) (act : Ipfs -> Ipfs) :
  (forall i, ipfs_blocks (act i) = ipfs_blocks i
             /\ ipfs_id (act i) = ipfs_id i /\ ipfs_libp2p (act i) = ipfs_libp2p i) ->
  frames transport_only (pubsub_call e act).
Proof.
  intros Hact w. unfold pubsub_call. unfold_monad. simpl.
  destruct (ipfs_faults (_ipfs w)) as [|[err|] rest]; simpl; unfold transport_only; simpl;
    try (destruct (Hact (_ipfs w)) as (h1 & h2 & h3));
    try (destruct (Hact (with_faults (_ipfs w) rest)) as (g1 & g2 & g3));
    repeat split; try reflexivity; try assumption.
Qed.

Lemma transport_only_subscribe_try (force : bool) :
  frames transport_only (_subscribe_try force).
Proof.
  pose proof transport_only_refl as Hr. pose proof transport_only_trans as Ht.
  unfold _subscribe_try, pubsub_ls, pubsub_unsubscribe, pubsub_subscribe.
  repeat first
    [ apply transport_only_emit
    | apply transport_only_pubsub_call; intros i; repeat split; reflexivity
    | frames_step ].
Qed.

Lemma transport_only_subscribe (force : bool) : frames transport_only (_subscribe force).
Proof.
  apply frames_subscribe.
  - apply transport_only_refl.
  - apply transport_only_trans.
  - apply transport_only_subscribe_try.
  - apply transport_only_emit.
Qed.

(** ** [init] *)



(** ** Subscribing on a healthy transport *)

Lemma subscribe_healthy (force : bool) (w : World) :
  ipfs_faults (_ipfs w) = [] ->
  _subscribe force w
  = (Ok tt,
     if force || negb (topic_listed w) then
       with_effects
         (with_ipfs w
            (with_subscriptions (_ipfs w)
               ((topic w, HandleMessage)
                  :: remove_listener (topic w, HandleMessage) (ipfs_subscriptions (_ipfs w)))))
         (effects w ++ (if force then [] else [PubsubLs]) ++ subscribe_calls w)
     else with_effects w (effects w ++ [PubsubLs])).
Proof.
  intros Hf. unfold _subscribe. rewrite Hf. cbn [length _subscribe_fuel].
  unfold _subscribe_try, pubsub_ls, pubsub_unsubscribe, pubsub_subscribe, pubsub_call,
    topic_listed, subscribe_calls.
  unfold_monad. destruct force; simpl; rewrite Hf; simpl.
  - rewrite Hf. simpl. rewrite <- !app_assoc. reflexivity.
  - destruct (array_includes _ (topic w)); simpl; [reflexivity|].
    rewrite Hf. simpl. rewrite Hf. simpl. rewrite <- !app_assoc. reflexivity.
Qed.

(** X9. On a transport that does not fail, a forced [_subscribe] never
    lists the subscriptions: it unsubscribes its own handler
    [handleMessage] from the topic, subscribes that handler and logs; an
    unforced one lists the topics first and makes the same calls exactly
    when the topic is not among them.  And whatever the transport does,
    [_subscribe] returns and leaves the dispatcher's fields, the block
    store and the timers as they are. *)
Theorem subscribe_calls_on_healthy_transport (force : bool) (w : World) :
  (ipfs_faults (_ipfs w) = [] ->
   new_effects w (snd (_subscribe force w))
   = (if force then [] else [PubsubLs])
     ++ (if force || negb (topic_listed w) then subscribe_calls w else []))
  /\ fst (_subscribe force w) = Ok tt
  /\ transport_only w (snd (_subscribe force w)).
Proof.
  split; [|split; [apply DispatcherFacts.subscribe_returns|apply transport_only_subscribe]].
  intros Hf. rewrite (subscribe_healthy force w Hf). cbn [snd].
  apply DispatcherFacts.new_effects_app.
  destruct force; cbn [orb].
  - reflexivity.
  - destruct (topic_listed w); cbn [negb]; reflexivity.
Qed.

Lemma subscribe_calls_on_healthy_transport_witness :
  new_effects Dispatcher.Example.fresh (snd (_subscribe false Dispatcher.Example.fresh))
  = [PubsubLs;
     PubsubUnsubscribe "/ceramic/inmemory" (Some HandleMessage);
     PubsubSubscribe "/ceramic/inmemory" HandleMessage;
     PubsubLoggerLog "subscribed" "/ceramic/inmemory"].
Proof.
  destruct (subscribe_calls_on_healthy_transport false Dispatcher.Example.fresh)
    as (Hcalls & _ & _).
  apply Hcalls. reflexivity.
Defined.

(** ** Registering again *)

(** X10. Registering a document again, at whatever commit or tip, files no
    second outstanding query: the query built depends on the base id only,
    so the table is left as the first [register] made it, and the very
    same QUERY is published once more. *)
Theorem reregister_adds_no_query (ext : External) (d d' : Document) (w : World) :
  baseID (doc_id d') = baseID (doc_id d) ->
  _buildQueryMessage ext d' = _buildQueryMessage ext d
  /\ _outstandingQueryIds (snd (register ext d' (snd (register ext d w))))
     = _outstandingQueryIds (snd (register ext d w))
  /\ new_effects (snd (register ext d w)) (snd (register ext d' (snd (register ext d w))))
     = new_effects w (snd (register ext d w)).
Proof.
  intros Hbase.
  assert (Hq : _buildQueryMessage ext d' = _buildQueryMessage ext d)
    by (unfold _buildQueryMessage; rewrite Hbase; reflexivity).
  assert (Hreg : forall (x : Document) (w0 : World),
             new_effects w0 (snd (register ext x w0))
             = [PubsubPublish (topic w0) (JSON_stringify ext (_buildQueryMessage ext x));
                PubsubLoggerLog "published" (topic w0)]).
  { intros x w0. unfold new_effects, register, repository_add, pubsub_publish.
    unfold_monad. simpl. rewrite <- app_assoc. apply drop_app_length. }
  split; [exact Hq|]. split.
  - rewrite !DispatcherFacts.register_table, Hq, Hbase. apply insert_insert_eq.
  - rewrite !Hreg, Hq. reflexivity.
Qed.

Lemma reregister_adds_no_query_witness :
  _outstandingQueryIds
    (snd (register Dispatcher.Example.ext DispatcherAux.Example.docD_remote
            (snd (register Dispatcher.Example.ext Dispatcher.Example.docD
                    Dispatcher.Example.fresh))))
  = _outstandingQueryIds
      (snd (register Dispatcher.Example.ext Dispatcher.Example.docD Dispatcher.Example.fresh)).
Proof.
  apply (reregister_adds_no_query Dispatcher.Example.ext Dispatcher.Example.docD
           DispatcherAux.Example.docD_remote Dispatcher.Example.fresh).
  reflexivity.
Defined.

(** ** The block store *)

Lemma same_blocks_refl (w : World) : same_blocks w w.
Proof. reflexivity. Qed.

Lemma same_blocks_trans (w1 w2 w3 : World) :
  same_blocks w1 w2 -> same_blocks w2 w3 -> same_blocks w1 w3.
Proof. unfold same_blocks. congruence. Qed.

Lemma same_blocks_emit (e : Effect) : frames same_blocks (emit e).
Proof. intros w. reflexivity. Qed.

Lemma same_blocks_pubsub_call (e : Effect) (act : Ipfs -> Ipfs) :
  (forall i, ipfs_blocks (act i) = ipfs_blocks i) -> frames same_blocks (pubsub_call e act).
Proof.
  intros Hact w. unfold pubsub_call. unfold_monad. unfold same_blocks. simpl.
  destruct (ipfs_faults (_ipfs w)) as [|[err|] rest]; simpl; rewrite ?Hact; reflexivity.
Qed.

Lemma same_blocks_subscribe (force : bool) : frames same_blocks (_subscribe force).
Proof.
  intros w. destruct (transport_only_subscribe force w) as (_ & _ & _ & _ & _ & _ & H & _).
  exact H.
Qed.

Ltac same_blocks_tac :=
  pose proof same_blocks_refl as Hrefl; pose proof same_blocks_trans as Htrans;
  repeat first
    [ apply same_blocks_emit
    | apply same_blocks_subscribe
    | apply same_blocks_pubsub_call; intros ?; reflexivity
    | apply frames_modify; intros ?; reflexivity
    | frames_step ].

(** What [storeCommit] has written when it is over, whether it returned a
    CID or threw. *)
Lemma storeCommit_blocks (ext : External) (data : CommitData) (w : World) :
  ipfs_blocks (_ipfs (snd (storeCommit ext data w)))
  = match data with
    | SignedCommitContainer jws linkedBlock =>
        <[cid_toString (jws_link jws) := StoredRaw linkedBlock]>
          (<[cid_toString (dag_cid ext (DagJose jws)) := StoredNode (DagJose jws)]>
             (ipfs_blocks (_ipfs w)))
    | PlainCommit record =>
        <[cid_toString (dag_cid ext (DagCbor record)) := StoredNode (DagCbor record)]>
          (ipfs_blocks (_ipfs w))
    end.
Proof.
  destruct data as [jws linkedBlock|record].
  - unfold storeCommit, dag_put, block_put, store_block, _restrictRecordSize, block_stat.
    unfold_monad. simpl. rewrite lookup_insert_eq. simpl.
    destruct (_ <? _)%N; simpl; [reflexivity|].
    destruct (_ !! _) as [b|]; simpl; [|reflexivity].
    destruct (_ <? _)%N; reflexivity.
  - pose proof (storeCommit_plain ext record w) as Hrun. cbv zeta in Hrun.
    rewrite Hrun. reflexivity.
Qed.

Ltac to_frames :=
  unfold step; cbn [exec];
  match goal with
  | |- ipfs_blocks (_ipfs (snd (?m ?w))) = ipfs_blocks (_ipfs ?w) =>
      revert w; change (frames same_blocks m)
  end.

Lemma step_blocks (ext : External) (o : Op) (w : World) :
  if writes_blocks o
  then dom (ipfs_blocks (_ipfs w)) ⊆ dom (ipfs_blocks (_ipfs (step ext o w)))
  else ipfs_blocks (_ipfs (step ext o w)) = ipfs_blocks (_ipfs w).
Proof.
  destruct o as [|force|timer|d|id|data|cid|cid path|id tip|m|m|]; cbn [writes_blocks].
  - to_frames. unfold init, ipfs_id_call, _resubscribe, setInterval. same_blocks_tac.
  - to_frames. apply same_blocks_subscribe.
  - to_frames. unfold resubscribe_tick. same_blocks_tac.
  - to_frames. unfold register, repository_add, pubsub_publish. same_blocks_tac.
  - to_frames. unfold unregister, repository_delete. same_blocks_tac.
  - unfold step. cbn [exec]. unfold discard, bind, ret.
    pose proof (storeCommit_blocks ext data w) as Hb.
    destruct (storeCommit ext data w) as [[c|e] w']; cbn [snd] in *; rewrite Hb;
      destruct data; rewrite ?dom_insert_L; set_solver.
  - to_frames. unfold discard, retrieveCommit, dag_get, _restrictRecordSize, block_stat.
    same_blocks_tac.
  - to_frames. unfold discard, retrieveFromIPFS, dag_get. same_blocks_tac.
  - to_frames. unfold publishTip, publish, pubsub_publish. same_blocks_tac.
  - unfold step. cbn [exec].
    destruct (handleMessage_outcome ext m w) as (l & E & _).
    rewrite E. reflexivity.
  - to_frames. unfold publish, pubsub_publish. same_blocks_tac.
  - to_frames. unfold close, clearInterval, repository_close, pubsub_unsubscribe.
    same_blocks_tac.
Qed.

(** X7. The dispatcher never deletes from the block store.  Whatever an
    operation does and however it ends, only [storeCommit] changes the
    store, and it only writes: the records of the commit are in the store
    afterwards even when the call fails.  So along any sequence of
    operations a CID once stored stays stored. *)
Theorem block_store_only_grows (ext : External) :
  (forall (o : Op) (w : World),
      if writes_blocks o
      then dom (ipfs_blocks (_ipfs w)) ⊆ dom (ipfs_blocks (_ipfs (step ext o w)))
      else ipfs_blocks (_ipfs (step ext o w)) = ipfs_blocks (_ipfs w))
  /\ (forall (data : CommitData) (w : World),
        ipfs_blocks (_ipfs (snd (storeCommit ext data w)))
        = match data with
          | SignedCommitContainer jws linkedBlock =>
              <[cid_toString (jws_link jws) := StoredRaw linkedBlock]>
                (<[cid_toString (dag_cid ext (DagJose jws)) := StoredNode (DagJose jws)]>
                   (ipfs_blocks (_ipfs w)))
          | PlainCommit record =>
              <[cid_toString (dag_cid ext (DagCbor record)) := StoredNode (DagCbor record)]>
                (ipfs_blocks (_ipfs w))
          end)
  /\ (forall (ops : list Op) (w : World),
        dom (ipfs_blocks (_ipfs w)) ⊆ dom (ipfs_blocks (_ipfs (run ext ops w)))).
Proof.
  split; [apply step_blocks|]. split; [apply storeCommit_blocks|].
  intros ops. induction ops as [|o ops IH]; intros w; simpl; [reflexivity|].
  etrans; [|apply IH].
  pose proof (step_blocks ext o w) as H.
  destruct (writes_blocks o); [exact H|rewrite H; reflexivity].
Qed.

(** ** Repeated updates *)

(** X11. UPDATE messages are not de-duplicated: every delivery of an
    UPDATE for a tracked document hands the document the tip again, so [n]
    deliveries of the same message leave exactly [n] ['update'] events and
    nothing else. *)
Theorem updates_are_not_deduplicated (message : UpdateMessage) (n : nat) (w : World) :
  is_Some (repository w !! repository_key (u_doc message)) ->
  redeliver n (_handleUpdateMessage message) w
  = with_effects w
      (effects w
       ++ repeat (DocumentEmitUpdate (repository_key (u_doc message)) (u_tip message)) n).
Proof.
  intros [doc Hdoc]. revert w Hdoc. induction n as [|n IH]; intros w Hdoc.
  - simpl. rewrite app_nil_r. symmetry. apply with_effects_same.
  - cbn [redeliver]. rewrite handleUpdateMessage_cases, Hdoc. cbn [snd].
    rewrite IH by exact Hdoc. simpl. rewrite <- app_assoc. reflexivity.
Qed.

Lemma updates_are_not_deduplicated_witness :
  new_effects Example.peer2
    (redeliver 3
       (_handleUpdateMessage {| u_doc := doc_id Example.docD; u_tip := mkCID "tip9" |})
       Example.peer2)
  = repeat (DocumentEmitUpdate (repository_key (doc_id Example.docD)) (mkCID "tip9")) 3.
Proof.
  rewrite (updates_are_not_deduplicated
             {| u_doc := doc_id Example.docD; u_tip := mkCID "tip9" |} 3 Example.peer2).
  - apply appends_new_effects. reflexivity.
  - vm_compute. eexists. reflexivity.
Defined.

End DispatcherExtra.

(* ===================================================================== *)
(** * Properties of the Dispatcher double of the tests                   *)
(* ===================================================================== *)

Module TestDispatcherFacts.

Import Dispatcher TestDispatcher.

(** X12. In the test double, what [storeCommit] stored is what
    [retrieveCommit], [dag.get] and [retrieveFromIPFS] (for any path, which
    it does not use) return under the CID [storeCommit] gave back: the
    record itself, or for a signed-commit container the envelope with its
    link set; and a later [storeCommit] that writes under other CIDs does
    not change it. *)
Theorem double_store_then_retrieve (libs : Libs) (rec : Rec) (recs : gmap string Rec) :
  retrieveCommit (fst (storeCommit libs rec recs)) (snd (storeCommit libs rec recs))
    = Some (stored_form libs rec)
  /\ dag_get (fst (storeCommit libs rec recs)) (snd (storeCommit libs rec recs))
     = Some (stored_form libs rec)
  /\ (forall path : option string,
        retrieveFromIPFS (fst (storeCommit libs rec recs)) path (snd (storeCommit libs rec recs))
        = Some (stored_form libs rec))
  /\ (forall rec2 : Rec,
        cid_toString (fst (storeCommit libs rec recs)) ∉ written libs rec2 ->
        retrieveCommit (fst (storeCommit libs rec recs))
          (snd (storeCommit libs rec2 (snd (storeCommit libs rec recs))))
        = Some (stored_form libs rec)).
Proof.
  assert (H : retrieveCommit (fst (storeCommit libs rec recs)) (snd (storeCommit libs rec recs))
              = Some (stored_form libs rec)).
  { unfold retrieveCommit. destruct rec; simpl; apply lookup_insert_eq. }
  split; [exact H|]. split; [exact H|]. split; [intros path; exact H|].
  intros rec2 Hfresh. unfold retrieveCommit in *.
  destruct rec2 as [jws2 lb2|jws2|r2]; simpl in Hfresh |- *.
  - rewrite !not_elem_of_cons in Hfresh. destruct Hfresh as (H1 & H2 & _).
    rewrite lookup_insert_ne by congruence. rewrite lookup_insert_ne by congruence. exact H.
  - rewrite !not_elem_of_cons in Hfresh. destruct Hfresh as (H1 & _).
    rewrite lookup_insert_ne by congruence. exact H.
  - rewrite !not_elem_of_cons in Hfresh. destruct Hfresh as (H1 & _).
    rewrite lookup_insert_ne by congruence. exact H.
Qed.

Lemma double_store_then_retrieve_witness :
  retrieveCommit (fst (storeCommit Example.libs (RecPlain "genesis") ∅))
    (snd (storeCommit Example.libs Example.container
            (snd (storeCommit Example.libs (RecPlain "genesis") ∅))))
  = Some (RecPlain "genesis").
Proof.
  destruct (double_store_then_retrieve Example.libs (RecPlain "genesis") ∅)
    as (_ & _ & _ & Hlater).
  apply (Hlater Example.container).
  vm_compute. intros H. apply list_elem_of_In in H. simpl in H.
  destruct H as [H|[H|[]]]; discriminate H.
Defined.

(** X13. For a signed-commit container the test double ignores the link
    the envelope came with: it stores the decoded payload under the CID of
    its JSON form, sets the envelope's link to that CID and stores the
    envelope under the CID of the result.  The stored envelope keeps
    payload and signatures, and its link resolves to the decoded payload
    unless the two CIDs coincide. *)
Theorem double_links_envelope_to_payload
    (libs : Libs) (jws : JWS) (linkedBlock : list Byte.byte) (recs : gmap string Rec) :
  let block := dagCBOR_deserialize libs linkedBlock in
  let cidLink := hash libs (JSON_stringify libs block) in
  let stored := set_link jws cidLink in
  let result := storeCommit libs (RecContainer jws linkedBlock) recs in
  (forall given : CID,
      storeCommit libs (RecContainer (set_link jws given) linkedBlock) recs = result)
  /\ fst result = hash libs (JSON_stringify libs (RecJws stored))
  /\ retrieveCommit (fst result) (snd result) = Some (RecJws stored)
  /\ jws_payload stored = jws_payload jws
  /\ jws_signatures stored = jws_signatures jws
  /\ (cid_toString (fst result) <> cid_toString cidLink ->
      retrieveCommit (jws_link stored) (snd result) = Some block).
Proof.
  cbv zeta. split; [reflexivity|]. split; [reflexivity|].
  split; [unfold retrieveCommit; simpl; apply lookup_insert_eq|].
  split; [reflexivity|]. split; [reflexivity|].
  intros Hne. unfold retrieveCommit. simpl in *.
  rewrite lookup_insert_ne by exact Hne. apply lookup_insert_eq.
Qed.

Lemma double_links_envelope_to_payload_witness :
  retrieveCommit
    (hash Example.libs (JSON_stringify Example.libs (RecPlain "payload")))
    (snd (storeCommit Example.libs Example.container ∅))
  = Some (RecPlain "payload").
Proof.
  destruct (double_links_envelope_to_payload Example.libs Example.envelope
              (String.list_byte_of_string "payload") ∅) as (_ & _ & _ & _ & _ & Hlink).
  apply Hlink. vm_compute. discriminate.
Defined.

End TestDispatcherFacts.

(* ===================================================================== *)
(** * Properties of the P-256 mapper                                     *)
(* ===================================================================== *)

Module Secp256r1Facts.

Import Secp256r1.
Open Scope string_scope.
Open Scope list_scope.

Lemma append_cons (c : Ascii.ascii) (a b : string) :
  String c a +:+ b = String c (a +:+ b).
Proof. reflexivity. Qed.

Lemma append_nil (b : string) : EmptyString +:+ b = b.
Proof. reflexivity. Qed.

Lemma substring_all (s : string) : String.substring 0 (String.length s) s = s.
Proof. induction s as [|c s IH]; simpl; [reflexivity|]. rewrite IH. reflexivity. Qed.

Lemma substring_none (s : string) : String.substring 0 0 s = EmptyString.
Proof. destruct s; reflexivity. Qed.

Lemma substring_split (s : string) (n : nat) :
  (n <= String.length s)%nat ->
  String.substring 0 n s +:+ String.substring n (String.length s - n) s = s.
Proof.
  revert n. induction s as [|c s IH]; intros [|n] Hn; simpl in *; try lia; try reflexivity.
  - rewrite substring_all. reflexivity.
  - rewrite append_cons, IH by lia. reflexivity.
Qed.

Lemma substring_length_prefix (s : string) (n : nat) :
  (n <= String.length s)%nat -> String.length (String.substring 0 n s) = n.
Proof.
  revert n. induction s as [|c s IH]; intros [|n] Hn; simpl in *; try lia; try reflexivity.
  rewrite IH by lia. reflexivity.
Qed.

Lemma substring_append_l (a b : string) :
  String.substring 0 (String.length a) (a +:+ b) = a.
Proof.
  induction a as [|c a IH]; [rewrite append_nil; apply substring_none|].
  rewrite append_cons. simpl. rewrite IH. reflexivity.
Qed.

Lemma substring_append_r (a b : string) :
  String.substring (String.length a) (String.length b) (a +:+ b) = b.
Proof.
  induction a as [|c a IH]; [rewrite append_nil; apply substring_all|].
  rewrite append_cons. simpl. exact IH.
Qed.

Lemma length_append (a b : string) :
  String.length (a +:+ b) = (String.length a + String.length b)%nat.
Proof.
  induction a as [|c a IH]; [reflexivity|].
  rewrite append_cons. simpl. rewrite IH. reflexivity.
Qed.

(** *** The hexadecimal stand-in obeys the laws of base16 *)

Lemma to_hex_length (a : list Byte.byte) :
  String.length (Example.to_hex a) = (2 * length a)%nat.
Proof. induction a as [|x a IH]; simpl; [reflexivity|]. rewrite IH. lia. Qed.

Lemma to_hex_app (a b : list Byte.byte) :
  Example.to_hex (a ++ b) = Example.to_hex a +:+ Example.to_hex b.
Proof.
  induction a as [|x a IH]; [reflexivity|].
  simpl. rewrite IH, !append_cons. reflexivity.
Qed.

Lemma from_to_hex (a : list Byte.byte) : Example.from_hex (Example.to_hex a) = a.
Proof.
  induction a as [|x a IH]; simpl; [reflexivity|].
  assert (E : Byte.of_N
                (Example.hex_value (Example.hex_digit (Byte.to_N x / 16)) * 16
                 + Example.hex_value (Example.hex_digit (Byte.to_N x mod 16)))
              = Some x) by (destruct x; vm_compute; reflexivity).
  rewrite E, IH. reflexivity.
Qed.

(** X14. [publicKeyToXY] cuts the hex form of the key in two without
    losing or repeating a digit, the first part having half the digits,
    rounded down.  With a base16 encoding that writes two digits per byte,
    byte after byte, and reads back what it wrote, a key made of two
    halves of equal length therefore yields the first half as [x] and the
    second as [y], each in multibase base64url; the same holds for a
    fingerprint that decodes to that key. *)
Theorem key_is_cut_in_halves (codec : Codec) :
  (forall hex : string,
      xHex hex +:+ yHex hex = hex
      /\ String.length (xHex hex) = (String.length hex / 2)%nat)
  /\ ((forall a, String.length (base16_toString codec a) = (2 * length a)%nat) ->
      (forall a b, base16_toString codec (a ++ b)
                   = base16_toString codec a +:+ base16_toString codec b) ->
      (forall a, base16_fromString codec (base16_toString codec a) = a) ->
      forall kx ky : list Byte.byte,
        length kx = length ky ->
        pubKeyBytesToXY codec (kx ++ ky)
        = {| xm := multibase_base64url codec kx; ym := multibase_base64url codec ky |}
        /\ (forall fingerprint : string,
              multicodec_rmPrefix codec (multibase_decode codec fingerprint) = kx ++ ky ->
              fingerprintToXY codec fingerprint
              = {| xm := multibase_base64url codec kx; ym := multibase_base64url codec ky |})).
Proof.
  split.
  - intros hex. unfold xHex, yHex, slice.
    assert (Hhalf : (String.length hex / 2 <= String.length hex)%nat)
      by (apply Nat.Div0.div_le_upper_bound; lia).
    rewrite Nat.sub_0_r. split; [apply substring_split|apply substring_length_prefix]; exact Hhalf.
  - intros Hlen Happ Hback kx ky Heq.
    assert (Hcut : publicKeyToXY codec (base16_toString codec (kx ++ ky))
                   = {| xm := multibase_base64url codec kx;
                        ym := multibase_base64url codec ky |}).
    { unfold publicKeyToXY, xHex, yHex, slice. rewrite Happ, length_append, !Hlen.
      replace ((2 * length kx + 2 * length ky) / 2)%nat with (2 * length kx)%nat
        by (rewrite Heq;
            replace (2 * length ky + 2 * length ky)%nat with (2 * length ky * 2)%nat by lia;
            rewrite Nat.div_mul by lia; reflexivity).
      rewrite Nat.sub_0_r.
      replace (2 * length kx + 2 * length ky - 2 * length kx)%nat
        with (String.length (base16_toString codec ky)) by (rewrite Hlen; lia).
      rewrite <- (Hlen kx).
      rewrite substring_append_l, substring_append_r, !Hback. reflexivity. }
    split; [exact Hcut|].
    intros fingerprint Hfp. unfold fingerprintToXY, fingerprintToHex. rewrite Hfp. exact Hcut.
Qed.

Lemma key_is_cut_in_halves_witness :
  pubKeyBytesToXY Example.codec ([Byte.x01; Byte.xab] ++ [Byte.xff; Byte.x10])
  = {| xm := "u01ab"; ym := "uff10" |}.
Proof.
  destruct (key_is_cut_in_halves Example.codec) as (_ & Hcut).
  destruct (Hcut to_hex_length to_hex_app from_to_hex [Byte.x01; Byte.xab] [Byte.xff; Byte.x10])
    as (H & _); [reflexivity|].
  exact H.
Defined.

End Secp256r1Facts.

(* ===================================================================== *)
(** * Properties of point decompression on P-384                         *)
(* ===================================================================== *)

Module Secp384r1Facts.

Import Secp384r1.
Open Scope Z_scope.

Lemma prime_odd : prime mod 2 = 1.
Proof. reflexivity. Qed.

Lemma prime_pos : 0 < prime.
Proof. reflexivity. Qed.

Lemma flip_parity (p r : Z) : p mod 2 = 1 -> 0 <= r < p -> (p - r) mod 2 = 1 - r mod 2.
Proof. intros Hp Hr. Z.to_euclidean_division_equations. lia. Qed.

Lemma flip_square (p r : Z) : 0 < p -> ((p - r) * (p - r)) mod p = (r * r) mod p.
Proof.
  intros Hp. replace ((p - r) * (p - r)) with (r * r + (p - 2 * r) * p) by ring.
  apply Z_mod_plus_full.
Qed.

(** X15. [ECPointDecompress] returns the [x] it read and, for the root
    [r] that [modPow] gives (taken in [0, prime)), either [r] or
    [prime - r], whose squares agree modulo the prime.  With prefix byte 2
    or 3 the returned [y] has the parity the prefix asks for (even for 2,
    odd for 3); with any other prefix byte there is no error and [y] is
    [prime - r]; an empty input throws. *)
Theorem decompress_respects_sign_bit
    (modPow : Z -> Z -> Z -> Z) (base10 : list Byte.byte -> Z)
    (c : Byte.byte) (rest : list Byte.byte) :
  let xBig := base10 rest in
  let r := modPow (xBig ^ 3 - xBig * 3 + b) pIdent prime in
  0 <= r < prime ->
  ECPointDecompress modPow base10 [] = None
  /\ exists yBig : Z,
       ECPointDecompress modPow base10 (c :: rest) = Some {| x := xBig; y := yBig |}
       /\ (yBig = r \/ yBig = prime - r)
       /\ (yBig * yBig) mod prime = (r * r) mod prime
       /\ 0 <= yBig <= prime
       /\ (c = Byte.x02 \/ c = Byte.x03 -> Z.rem yBig 2 = Z.of_N (Byte.to_N c) - 2)
       /\ (c <> Byte.x02 -> c <> Byte.x03 -> yBig = prime - r).
Proof.
  cbv zeta. set (r := modPow _ pIdent prime). intros Hr.
  split; [reflexivity|].
  assert (Hrem : Z.rem r 2 = r mod 2) by (apply Z.rem_mod_nonneg; lia).
  assert (Hbit : 0 <= r mod 2 < 2) by (apply Z.mod_pos_bound; lia).
  unfold ECPointDecompress. fold r.
  destruct (Z.eqb_spec (Z.rem r 2) (Z.of_N (Byte.to_N c) - 2)) as [E|E].
  - exists r. split; [reflexivity|]. split; [left; reflexivity|].
    split; [reflexivity|]. split; [lia|]. split; [intros _; exact E|].
    intros H2 H3. exfalso. rewrite Hrem in E.
    assert (Hc : Byte.to_N c = 2%N \/ Byte.to_N c = 3%N) by lia.
    pose proof (Byte.of_to_N c) as Hback.
    destruct Hc as [Hc|Hc]; rewrite Hc in Hback; vm_compute in Hback;
      [apply H2|apply H3]; congruence.
  - exists (prime - r). split; [reflexivity|]. split; [right; reflexivity|].
    split; [apply flip_square, prime_pos|]. split; [lia|]. split; [|intros _ _; reflexivity].
    intros Hc. rewrite Z.rem_mod_nonneg by lia.
    rewrite (flip_parity prime r prime_odd Hr). rewrite Hrem in E.
    destruct Hc as [-> | ->]; simpl in *; lia.
Qed.

Lemma decompress_respects_sign_bit_witness :
  exists yBig : Z,
    ECPointDecompress (fun a e n => a ^ e mod n) (fun _ => 5) [Byte.x03; Byte.x05]
    = Some {| x := 5; y := yBig |}
    /\ Z.rem yBig 2 = 1.
Proof.
  destruct (decompress_respects_sign_bit (fun a e n => a ^ e mod n) (fun _ => 5)
              Byte.x03 [Byte.x05]) as (_ & yBig & Hrun & _ & _ & _ & Hsign & _).
  - apply Z.mod_pos_bound. exact prime_pos.
  - exists yBig. split; [exact Hrun|]. apply Hsign. right. reflexivity.
Defined.

End Secp384r1Facts.
